(** * The workshop notebooks: polling, pagination, batching, splitting, teardown

    A shallow embedding of the control flow that the notebooks of the
    workshop implement themselves, around calls to managed services:

    - [Textract]  : [notebooks/Lab1-boto3 API/Document processing.ipynb]
    - [Autopilot] : [notebooks/Lab3 - autopilot/autopilot_customer_churn.ipynb]
    - [Hpo]       : the XGBoost / hyper-parameter tuning notebook

    The managed services are not modelled: a service is an oracle, the list of
    replies it gives to the successive calls of a cell.  A cell is a function
    from the oracle to the trace of the actions it performs and to the way it
    ends.  A Python exception raised by an SDK call ends the cell, since no
    notebook has a [try] statement. *)

From stdpp Require Import gmap strings list fin_maps.

(** ** Python values and SDK calls *)

(** What one SDK call does: it returns a value or raises. *)
Inductive reply (A : Type) : Type :=
| Ok (a : A)
| Raise (exn : string).
Arguments Ok {A} a.
Arguments Raise {A} exn.

(** The observable actions of a cell. [Describe] is a job-status query, with
    what the service answered; [Step] is any other call to a service. *)
Inductive event : Type :=
| Sleep (secs : nat)
| Describe (api : string) (r : reply string)
| Print
| Step (api : string).

(** How a cell ends: it runs to its end with a final value, an exception
    leaves it, or it is still blocked when the oracle has no more replies. *)
Inductive outcome (A : Type) : Type :=
| Exited (a : A)
| Raised (exn : string)
| Waiting.
Arguments Exited {A} a.
Arguments Raised {A} exn.
Arguments Waiting {A}.

Record run (A : Type) : Type := Run { trace : list event; result : outcome A }.
Arguments Run {A} trace result.
Arguments trace {A} r.
Arguments result {A} r.

(** Actions performed before the rest of a run. *)
Definition emit {A} (evs : list event) (r : run A) : run A :=
  Run (evs ++ trace r) (result r).

(** Python's [x in (a, b, c)] on strings. *)
Definition py_in (s : string) (t : list string) : bool :=
  existsb (String.eqb s) t.
Arguments py_in : simpl never.

(** Python's [s[i:j]] for [0 <= i <= j]; the end is clamped to [len(s)]. *)
Definition slice {A} (s : list A) (i j : nat) : list A :=
  take (j - i) (drop i s).

(** Python's [range(start, stop, step)] for a positive step. The fuel is the
    number of values that can be needed at most. *)
Fixpoint range_aux (fuel i stop step : nat) : list nat :=
  match fuel with
  | 0 => []
  | S fuel' =>
      if i <? stop then i :: range_aux fuel' (i + step) stop step else []
  end.

Definition range (start stop step : nat) : list nat :=
  range_aux (stop - start) start stop step.

(** A Python [str] is a sequence of Unicode code points. *)
Definition codepoint := N.
Definition str := list codepoint.

(** The number of bytes of a code point, and of a [str], in UTF-8: what
    [len(s.encode('utf-8'))] is. *)
Definition utf8_width (c : codepoint) : nat :=
  if (c <? 128)%N then 1
  else if (c <? 2048)%N then 2
  else if (c <? 65536)%N then 3
  else 4.

Definition utf8_len (s : str) : nat := sum_list (utf8_width <$> s).

(** [a < b] on strings: by the code points, and a proper prefix is less. *)
Fixpoint str_lt (a b : str) : bool :=
  match a, b with
  | _, [] => false
  | [], _ :: _ => true
  | x :: a', y :: b' =>
      if (x <? y)%N then true
      else if (y <? x)%N then false
      else str_lt a' b'
  end.

(** The variables of a notebook kernel. Only string values are looked into. *)
Inductive pyval : Type :=
| VStr (s : string)
| VOpaque.

Abbreviation env := (gmap string pyval).

(** The value of a variable that has to be a string. *)
Definition read (e : env) (x : string) : reply string :=
  match e !! x with
  | Some (VStr s) => Ok s
  | Some VOpaque => Raise ("TypeError: " +:+ x)
  | None => Raise ("NameError: name '" +:+ x +:+ "' is not defined")
  end.

(** Assignments, the first of the list first. *)
Definition assign_all (bs : list (string * pyval)) (e : env) : env :=
  foldl (fun e b => <[b.1 := b.2]> e) e bs.

(** A cell that is entered only when the cell before it has run to its end:
    an exception stops the run of a notebook, and a blocked cell blocks it. *)
Definition and_then {A} (r : run A) (next : list event) : run A :=
  match result r with
  | Exited a => Run (trace r ++ next) (Exited a)
  | _ => r
  end.

(** A data frame: rows in order, each with its index label. *)
Record row : Type := Row { label : nat; cells : list string }.

Global Instance row_eq_dec : EqDecision row.
Proof. solve_decision. Defined.

Abbreviation frame := (list row).

(** [df.index] *)
Definition index (df : frame) : list nat := label <$> df.

(** [os.path.join] on relative components that do not end in a slash. *)
Definition path_join (parts : list string) : string :=
  match parts with
  | [] => ""
  | p :: ps => foldl (fun acc q => acc +:+ "/" +:+ q) p ps
  end.

(** ** Floating point

    A Python [float] is a binary64 number. The doubles [0.7] and [0.9] are
    in [[0.5, 1)], so each is its 53-bit significand over [2^53]. *)
Definition double_0_7 : Z := 6305039478318694.
Definition double_0_9 : Z := 8106479329266893.

(** Rounding to the nearest double, ties to even, of a number [p / 2^53]
    with [0 <= p], in units of [2^-53]: the bits below the 53 leading
    ones are dropped, and the significand goes up when they are more than a
    half, or a half and the significand is odd. *)
Definition round_double (p : Z) : Z :=
  let k := (Z.log2 p + 1 - 53)%Z in
  if (k <=? 0)%Z then p
  else
    let q := (p / 2 ^ k)%Z in
    let r := (p mod 2 ^ k)%Z in
    let half := (2 ^ (k - 1))%Z in
    if (half <? r)%Z || ((r =? half)%Z && Z.odd q)
    then ((q + 1) * 2 ^ k)%Z
    else (q * 2 ^ k)%Z.

(** [int(x * n)] for the double [x] of significand [mant] and an integer
    [0 <= n < 2^53], which is a double as it is: the product is rounded and
    [int] takes its whole part. *)
Definition int_times (mant : Z) (n : nat) : nat :=
  Z.to_nat (round_double (mant * Z.of_nat n) / 2 ^ 53).

(** ** Lab 1: Textract and Comprehend Medical *)

Module Textract.

Definition get_document_analysis : string := "textract.get_document_analysis".

(** [[
    while(status == "IN_PROGRESS"):
        time.sleep(5)
        response = textract.get_document_analysis(JobId=textractJobId)
        status = response["JobStatus"]
        print("Textract Job status: {}".format(status))
    ]] *)
Fixpoint poll_while (status : string) (svc : list (reply string)) : run string :=
  if String.eqb status "IN_PROGRESS" then
    match svc with
    | [] => Run [Sleep 5] Waiting
    | Raise e :: _ =>
        Run [Sleep 5; Describe get_document_analysis (Raise e)] (Raised e)
    | Ok s :: svc' =>
        emit [Sleep 5; Describe get_document_analysis (Ok s); Print]
             (poll_while s svc')
    end
  else Run [] (Exited status).

(** The cell: one query after five seconds, then the loop. *)
Definition poll (svc : list (reply string)) : run string :=
  match svc with
  | [] => Run [Sleep 5] Waiting
  | Raise e :: _ =>
      Run [Sleep 5; Describe get_document_analysis (Raise e)] (Raised e)
  | Ok s :: svc' =>
      emit [Sleep 5; Describe get_document_analysis (Ok s)] (poll_while s svc')
  end.

(** A response of [get_document_analysis], as far as the fetch loop looks
    into it: the ['NextToken'] entry, when the dictionary has one, and the
    rest of the dictionary. *)
Record response : Type := Response { NextToken : option string; body : string }.

(** Python's truth value of [nextToken]: [None] and the empty string are
    false. *)
Definition truthy (nextToken : option string) : bool :=
  match nextToken with
  | None => false
  | Some t => negb (String.eqb t "")
  end.

(** A response as the service sends it: the API gives ['NextToken'] a
    length of at least one character, and a response after which there is
    nothing more to fetch has no such key. *)
Definition sent_by_service (r : response) : Prop := NextToken r <> Some "".

(** The state of the fetch cell: the list [pages], and the [NextToken]
    argument of every request made so far ([None]: the argument is not
    passed). *)
Record fetched : Type :=
  Fetched { pages : list response; requests : list (option string) }.

(** [[
    while(nextToken):
        time.sleep(5)
        response = textract.get_document_analysis(JobId=textractJobId, NextToken=nextToken)
        pages.append(response)
        print("Resultset page recieved: {}".format(len(pages)))
        nextToken = None
        if('NextToken' in response):
            nextToken = response['NextToken']
    ]] *)
Fixpoint fetch_while (nextToken : option string) (st : fetched)
    (svc : list (reply response)) : fetched * outcome unit :=
  if truthy nextToken then
    let sent := Fetched (pages st) (requests st ++ [nextToken]) in
    match svc with
    | [] => (sent, Waiting)
    | Raise e :: _ => (sent, Raised e)
    | Ok r :: svc' =>
        fetch_while (NextToken r) (Fetched (pages st ++ [r]) (requests sent)) svc'
    end
  else (st, Exited tt).

(** The cell: [pages = []], the first request without a token, then the
    loop. *)
Definition fetch (svc : list (reply response)) : fetched * outcome unit :=
  match svc with
  | [] => (Fetched [] [None], Waiting)
  | Raise e :: _ => (Fetched [] [None], Raised e)
  | Ok r :: svc' => fetch_while (NextToken r) (Fetched [r] [None]) svc'
  end.

(** [maxLength=20000] *)
Definition maxLength : nat := 20000.

(** Modelled from the spec: the [Text] argument of [detect_entities_v2],
    which the notebook leaves to the reader as
    [<the text range to process for this loop>]; the spec gives the slice
    [pageText[i : i+20000]]. The loop header
    [for i in range(0, len(pageText), maxLength)] is the notebook's. *)
Definition text_range (pageText : str) (i : nat) : str :=
  slice pageText i (i + maxLength).

(** The texts submitted for one page, in order. *)
Definition submitted (pageText : str) : list str :=
  text_range pageText <$> range 0 (length pageText) maxLength.

(** The texts submitted for all pages ([for page in doc.pages]). *)
Definition submitted_all (doc_pages : list str) : list str :=
  doc_pages ≫= submitted.

Section Comprehend.

(** A response of [detect_entities_v2]. *)
Variable entities : Type.

(** The [Text] argument of [detect_entities_v2], which the notebook leaves
    to the reader, as it is made of [pageText] and [i]. *)
Variable text_arg : str -> nat -> str.

(** The state of the cell: the list [comprehendResponse], and the texts of
    the calls made so far. *)
Record comprehended : Type :=
  Comprehended { comprehendResponse : list entities; texts_sent : list str }.

(** [[
    for i in range(0, len(pageText), maxLength):
        response = comprehend_medical_client.detect_entities_v2(Text=...)
        comprehendResponse.append(response)
    ]]
    on the values of [i] that are left; the replies that are left go to the
    next page. *)
Fixpoint detect_each (pageText : str) (starts : list nat) (st : comprehended)
    (svc : list (reply entities))
    : comprehended * outcome (list (reply entities)) :=
  match starts with
  | [] => (st, Exited svc)
  | i :: starts' =>
      let sent := texts_sent st ++ [text_arg pageText i] in
      match svc with
      | [] => (Comprehended (comprehendResponse st) sent, Waiting)
      | Raise e :: _ => (Comprehended (comprehendResponse st) sent, Raised e)
      | Ok response :: svc' =>
          detect_each pageText starts'
            (Comprehended (comprehendResponse st ++ [response]) sent) svc'
      end
  end.

(** [[
    for page in doc.pages:
        pageText = page.text
        for i in range(0, len(pageText), maxLength): ...
        patient_string = ""
    ]] *)
Fixpoint detect_pages (doc_pages : list str) (st : comprehended)
    (svc : list (reply entities)) : comprehended * outcome unit :=
  match doc_pages with
  | [] => (st, Exited tt)
  | pageText :: doc_pages' =>
      match detect_each pageText (range 0 (length pageText) maxLength) st svc with
      | (st', Exited svc') => detect_pages doc_pages' st' svc'
      | (st', Raised e) => (st', Raised e)
      | (st', Waiting) => (st', Waiting)
      end
  end.

(** The cell, from [comprehendResponse = []]. *)
Definition comprehend (doc_pages : list str) (svc : list (reply entities))
    : comprehended * outcome unit :=
  detect_pages doc_pages (Comprehended [] []) svc.

(** [comprehendResponse[0]], the argument of [extractMC_v2] in the cell that
    reviews the results. *)
Definition first_response (st : comprehended) : reply entities :=
  match comprehendResponse st with
  | [] => Raise "IndexError: list index out of range"
  | response :: _ => Ok response
  end.

(** The texts of all the calls that the cell makes when every call
    returns. *)
Definition texts_of (doc_pages : list str) : list str :=
  doc_pages ≫= (fun pageText =>
                  text_arg pageText <$> range 0 (length pageText) maxLength).

(** The calls for the texts [texts], one after the other. *)
Fixpoint serve (texts : list str) (st : comprehended)
    (svc : list (reply entities))
    : comprehended * outcome (list (reply entities)) :=
  match texts with
  | [] => (st, Exited svc)
  | text :: texts' =>
      let sent := texts_sent st ++ [text] in
      match svc with
      | [] => (Comprehended (comprehendResponse st) sent, Waiting)
      | Raise e :: _ => (Comprehended (comprehendResponse st) sent, Raised e)
      | Ok response :: svc' =>
          serve texts' (Comprehended (comprehendResponse st ++ [response]) sent)
                svc'
      end
  end.

End Comprehend.

(** The number of calls that a page text of [n] characters needs: the
    least number of batches of [maxLength] characters that hold it. *)
Definition calls_for (n : nat) : nat := (n + maxLength - 1) / maxLength.

(** The kernel of the notebook and the bucket contents it acts on. An S3
    object is a pair of a bucket and a key. *)
Record kernel : Type := Kernel { vars : env; s3 : gset (string * string) }.

(** A cell has run: the kernel after it, and the exception that left it. *)
Record ran : Type := Ran { after : kernel; raised : option string }.

Section Cells.

(** The names bound by [from preprocess import *]: [util/preprocess.py]
    is not part of the notebook. *)
Variable preprocess : list (string * pyval).

(** [sagemaker.Session().default_bucket()] *)
Variable default_bucket : string.

(** [[
    import boto3, time, sagemaker, os, trp
    from preprocess import *
    import pandas as pd
    bucket = sagemaker.Session().default_bucket()
    prefix = 'sagemaker/medical_notes'
    ]] *)
Definition setup_assignments : list (string * pyval) :=
  [("boto3", VOpaque); ("time", VOpaque); ("sagemaker", VOpaque);
   ("os", VOpaque); ("trp", VOpaque)]
  ++ preprocess
  ++ [("pd", VOpaque); ("bucket", VStr default_bucket);
      ("prefix", VStr "sagemaker/medical_notes")].

Definition cell_setup (k : kernel) : ran :=
  Ran (Kernel (assign_all setup_assignments (vars k)) (s3 k)) None.

(** [[
    fileName =  'sample_report.pdf'
    fileUploadPath = fileName
    S3_path = os.path.join(prefix, 'data', fileName)
    boto3.Session().resource('s3').Bucket(<your bucket>).Object(<S3_path>).upload_file(<fileUploadPath>)
    ]]
    with the three places to fill in taken as [bucket], [S3_path] and
    [fileUploadPath]. *)
Definition cell_upload (k : kernel) : ran :=
  let e :=
    assign_all [("fileName", VStr "sample_report.pdf");
                ("fileUploadPath", VStr "sample_report.pdf")] (vars k) in
  match read e "prefix" with
  | Raise x => Ran (Kernel e (s3 k)) (Some x)
  | Ok p =>
      let key := path_join [p; "data"; "sample_report.pdf"] in
      let e' := <["S3_path" := VStr key]> e in
      match read e' "bucket" with
      | Raise x => Ran (Kernel e' (s3 k)) (Some x)
      | Ok b => Ran (Kernel e' ({[ (b, key) ]} ∪ s3 k)) None
      end
  end.

(** Every other name that a cell between the upload and the clean-up
    assigns, whether or not the assignment is reached. *)
Definition analysis_names : list string :=
  ["textract"; "response"; "textractJobId"; "status"; "pages";
   "nextToken"; "doc"; "idx"; "page"; "maxLength";
   "comprehendResponse"; "comprehend_medical_client";
   "pageText"; "i"; "patient_string"; "df_cm"].

Definition cell_analysis (k : kernel) : ran :=
  Ran (Kernel (assign_all ((fun x => (x, VOpaque)) <$> analysis_names) (vars k))
              (s3 k))
      None.

(** [[
    boto3.Session().resource('s3').Bucket(bucket).Object(textractObjectName).delete()
    ]] *)
Definition cell_cleanup (k : kernel) : ran :=
  match read (vars k) "bucket" with
  | Raise x => Ran k (Some x)
  | Ok b =>
      match read (vars k) "textractObjectName" with
      | Raise x => Ran k (Some x)
      | Ok key => Ran (Kernel (vars k) (s3 k ∖ {[ (b, key) ]})) None
      end
  end.

(** The cells in order; the first exception ends the run. *)
Fixpoint run_cells (cs : list (kernel -> ran)) (k : kernel) : ran :=
  match cs with
  | [] => Ran k None
  | c :: cs' =>
      match raised (c k) with
      | Some x => c k
      | None => run_cells cs' (after (c k))
      end
  end.

Definition notebook (k : kernel) : ran :=
  run_cells [cell_setup; cell_upload; cell_analysis; cell_cleanup] k.

End Cells.

(** The poll cell and the first actions of the fetch cell after it. *)
Definition poll_then_fetch (svc : list (reply string)) : run string :=
  and_then (poll svc) [Sleep 5; Step get_document_analysis].

End Textract.

(** ** Lab 3: Autopilot *)

Module Autopilot.

Definition describe_auto_ml_job : string := "sm.describe_auto_ml_job".

(** The tuple of the loop condition. *)
Definition finished : list string := ["Failed"; "Completed"; "Stopped"].

(** [[
    while job_run_status not in ('Failed', 'Completed', 'Stopped'):
        describe_response = sm.describe_auto_ml_job(AutoMLJobName=auto_ml_job_name)
        job_run_status = describe_response['AutoMLJobStatus']

        print (describe_response['AutoMLJobStatus'] + " - " + describe_response['AutoMLJobSecondaryStatus'])
        sleep(30)
    ]] *)
Fixpoint poll_while (job_run_status : string) (svc : list (reply string))
    : run string :=
  if negb (py_in job_run_status finished) then
    match svc with
    | [] => Run [] Waiting
    | Raise e :: _ => Run [Describe describe_auto_ml_job (Raise e)] (Raised e)
    | Ok s :: svc' =>
        emit [Describe describe_auto_ml_job (Ok s); Print; Sleep 30]
             (poll_while s svc')
    end
  else Run [] (Exited job_run_status).

(** The cell: two lines of heading, one query, its line, then the loop. *)
Definition poll (svc : list (reply string)) : run string :=
  match svc with
  | [] => Run [Print; Print] Waiting
  | Raise e :: _ =>
      Run [Print; Print; Describe describe_auto_ml_job (Raise e)] (Raised e)
  | Ok s :: svc' =>
      emit [Print; Print; Describe describe_auto_ml_job (Ok s); Print]
           (poll_while s svc')
  end.

(** The poll cell and, after it, the cell that looks up ['BestCandidate']. *)
Definition best_candidate : string := "sm.describe_auto_ml_job['BestCandidate']".

Definition poll_then_best_candidate (svc : list (reply string)) : run string :=
  and_then (poll svc) [Step best_candidate; Print; Print; Print; Print; Print].

(** [churn.drop(labels)]: the rows whose label is not among [labels]. *)
Definition drop_rows (df : frame) (labels : list nat) : frame :=
  filter (fun r => label r ∉ labels) df.

(** [test_data = churn.drop(train_data.index)] *)
Definition test_data (churn train_data : frame) : frame :=
  drop_rows churn (index train_data).

(** The SageMaker resources of the account, by name. *)
Record sagemaker : Type := SageMaker {
  models : gset string;
  endpoint_configs : gset string;
  endpoints : gset string
}.

(** The three names that the hosting cell builds. *)
Record hosted : Type := Hosted {
  model_name : string;
  epc_name : string;
  ep_name : string
}.

(** [[
    model_name = best_candidate_name + timestamp_suffix + "-model"
    model_arn = sm.create_model(..., ModelName=model_name, ...)
    epc_name = best_candidate_name + timestamp_suffix + "-epc"
    ep_config = sm.create_endpoint_config(EndpointConfigName = epc_name, ...)
    ep_name = best_candidate_name + timestamp_suffix + "-ep"
    create_endpoint_response = sm.create_endpoint(EndpointName=ep_name, EndpointConfigName=epc_name)
    ]] *)
Definition host (best_candidate_name timestamp_suffix : string)
    (sm : sagemaker) : hosted * sagemaker :=
  let h := Hosted (best_candidate_name +:+ timestamp_suffix +:+ "-model")
                  (best_candidate_name +:+ timestamp_suffix +:+ "-epc")
                  (best_candidate_name +:+ timestamp_suffix +:+ "-ep") in
  (h, SageMaker ({[ model_name h ]} ∪ models sm)
                ({[ epc_name h ]} ∪ endpoint_configs sm)
                ({[ ep_name h ]} ∪ endpoints sm)).

(** [[
    sm.delete_endpoint(EndpointName=ep_name)
    sm.delete_endpoint_config(EndpointConfigName=epc_name)
    sm.delete_model(ModelName=model_name)
    ]] *)
Definition cleanup (h : hosted) (sm : sagemaker) : sagemaker :=
  SageMaker (models sm ∖ {[ model_name h ]})
            (endpoint_configs sm ∖ {[ epc_name h ]})
            (endpoints sm ∖ {[ ep_name h ]}).

(** [sagemaker.__version__ < '2'], on which the evaluation cell takes the
    classes of version 1 of the SDK. *)
Definition version_1 (version : str) : bool := str_lt version [50%N].

(** [gmtime()], as far as [strftime] looks into it. *)
Record struct_time : Type := StructTime {
  tm_year : nat;
  tm_mon : nat;
  tm_mday : nat;
  tm_hour : nat;
  tm_min : nat;
  tm_sec : nat
}.

(** The ranges of the fields of a time. *)
Definition well_formed (t : struct_time) : Prop :=
  1 <= tm_mon t <= 12 /\ 1 <= tm_mday t <= 31 /\ tm_hour t <= 23
  /\ tm_min t <= 59 /\ tm_sec t <= 61.

(** A number below 100 in two digits, as [%d], [%H], [%M] and [%S] print
    it. *)
Definition two_digits (n : nat) : string :=
  String (Ascii.ascii_of_nat (48 + n / 10))
         (String (Ascii.ascii_of_nat (48 + n mod 10)) EmptyString).

(** [strftime('%d-%H-%M-%S', gmtime())] *)
Definition timestamp (t : struct_time) : string :=
  two_digits (tm_mday t) +:+ "-" +:+ two_digits (tm_hour t) +:+ "-"
  +:+ two_digits (tm_min t) +:+ "-" +:+ two_digits (tm_sec t).

(** [auto_ml_job_name = 'automl-churn-' + timestamp_suffix] *)
Definition auto_ml_job_name (t : struct_time) : string :=
  "automl-churn-" +:+ timestamp t.

End Autopilot.

(** ** The XGBoost and hyper-parameter tuning notebook *)

Module Hpo.

Definition describe_hyper_parameter_tuning_job : string :=
  "sgmk_client.describe_hyper_parameter_tuning_job".

(** [hpo_state is None or hpo_state == "InProgress"] *)
Definition unfinished (hpo_state : option string) : bool :=
  match hpo_state with
  | None => true
  | Some s => String.eqb s "InProgress"
  end.

(** [[
    while hpo_state is None or hpo_state == "InProgress":
        if hpo_state is not None:
            print("-", end="")
            time.sleep(60)  # Poll once every 1 min
        hpo_state = sgmk_client.describe_hyper_parameter_tuning_job(
            HyperParameterTuningJobName=tuner.latest_tuning_job.job_name,
        )["HyperParameterTuningJobStatus"]
    ]] *)
Fixpoint poll_while (hpo_state : option string) (svc : list (reply string))
    : run (option string) :=
  if unfinished hpo_state then
    let waited :=
      match hpo_state with
      | Some _ => [Print; Sleep 60]
      | None => []
      end in
    match svc with
    | [] => Run waited Waiting
    | Raise e :: _ =>
        Run (waited ++ [Describe describe_hyper_parameter_tuning_job (Raise e)])
            (Raised e)
    | Ok s :: svc' =>
        emit (waited ++ [Describe describe_hyper_parameter_tuning_job (Ok s)])
             (poll_while (Some s) svc')
    end
  else Run [] (Exited hpo_state).

(** The cell: [hpo_state = None], the loop, and the line that prints the
    state. *)
Definition poll (svc : list (reply string)) : run (option string) :=
  and_then (poll_while None svc) [Print].

(** The poll cell and, after it, the cell that deploys the best model. *)
Definition deploy : string := "tuner.deploy".

Definition poll_then_deploy (svc : list (reply string)) : run (option string) :=
  and_then (poll svc) [Step deploy].

(** [np.split(ary, indices)] along the rows: the pieces
    [ary[0:i1], ary[i1:i2], ..., ary[ik:]]. *)
Fixpoint split_from {A} (st : nat) (indices : list nat) (ary : list A)
    : list (list A) :=
  match indices with
  | [] => [drop st ary]
  | i :: indices' => slice ary st i :: split_from i indices' ary
  end.

Definition np_split {A} (ary : list A) (indices : list nat) : list (list A) :=
  split_from 0 indices ary.

End Hpo.

(** ** Frames by columns *)

(** Exceptions go through a sequence of statements. *)
Global Instance reply_bind : MBind reply :=
  fun A B k m => match m with Ok a => k a | Raise e => Raise e end.

Module Tabular.

(** The value of a cell. *)
Inductive value : Type :=
| VInt (z : Z)
| VText (s : string).

Global Instance value_eq_dec : EqDecision value.
Proof. solve_decision. Defined.

(** A data frame: the number of its rows, and its columns in order, each
    with its name. The index is the same in all frames of a cell, and is
    left out. *)
Record table : Type := Table { nrows : nat; cols : list (string * list value) }.

(** [df.columns] *)
Definition columns (df : table) : list string := (cols df).*1.

(** The column of a name, the first when there are several. *)
Fixpoint column (name : string) (cs : list (string * list value))
    : option (list value) :=
  match cs with
  | [] => None
  | (n, vs) :: cs' => if String.eqb n name then Some vs else column name cs'
  end.

(** [df[name]] on a frame with distinct names: the values of the column,
    or a [KeyError]. Where several columns have the name, pandas gives a
    frame of them and not a column; [getitem] then has the first of them,
    and [getitem_rename] below tells the two cases apart. *)
Definition getitem (df : table) (name : string) : reply (list value) :=
  match column name (cols df) with
  | Some vs => Ok vs
  | None => Raise ("KeyError: " +:+ name)
  end.

(** The number of columns of a name. *)
Definition occurrences (name : string) (df : table) : nat :=
  length (filter (fun n => n = name) (columns df)).

(** [df[name].rename(new)], the values of the column that is given the new
    name. When several columns have the name, [df[name]] is not a column
    but a frame of these columns, and [rename] of a frame with a string is
    a [TypeError]. *)
Definition getitem_rename (df : table) (name : string) : reply (list value) :=
  match getitem df name with
  | Ok vs =>
      if occurrences name df =? 1 then Ok vs
      else Raise "TypeError: 'str' object is not callable"
  | Raise e => Raise e
  end.

(** The columns after [df[name] = vs]: the column of the name has the new
    values, where it is, and a new name is a new last column. *)
Fixpoint assign_column (name : string) (vs : list value)
    (cs : list (string * list value)) : list (string * list value) :=
  match cs with
  | [] => [(name, vs)]
  | (n, old) :: cs' =>
      if String.eqb n name then (n, vs) :: cs'
      else (n, old) :: assign_column name vs cs'
  end.

(** [df[name] = vs], for an array [vs] *)
Definition setitem (df : table) (name : string) (vs : list value)
    : reply table :=
  if length vs =? nrows df
  then Ok (Table (nrows df) (assign_column name vs (cols df)))
  else Raise "ValueError: Length of values does not match length of index".

(** [df.drop(labels, axis=1)]: a label that is not a column is a
    [KeyError] (of which the message names the first only, here). *)
Definition drop_columns (df : table) (labels : list string) : reply table :=
  match filter (fun l => l ∉ columns df) labels with
  | [] => Ok (Table (nrows df) (filter (fun c => c.1 ∉ labels) (cols df)))
  | l :: _ => Raise ("KeyError: " +:+ l)
  end.

(** [np.where(vs == v, 1, 0)] *)
Definition where_eq (vs : list value) (v : value) : list value :=
  (fun x => if decide (x = v) then VInt 1 else VInt 0) <$> vs.

(** [np.where(np.in1d(vs, among), 1, 0)] *)
Definition where_in1d (vs among : list value) : list value :=
  (fun x => if decide (x ∈ among) then VInt 1 else VInt 0) <$> vs.

(** [pd.concat([series.rename(name), df], axis=1)], for a series with the
    index of [df]. *)
Definition concat_series (name : string) (series : list value) (df : table)
    : table :=
  Table (nrows df) ((name, series) :: cols df).

(** Every column has a name of its own and as many values as the frame has
    rows. *)
Definition well_formed (df : table) : Prop :=
  NoDup (columns df) /\ Forall (fun c => length c.2 = nrows df) (cols df).

End Tabular.

(** ** The data of the tuning notebook *)

Module Bank.

Import Tabular.

(** [[
    df_data["no_previous_contact"] = np.where(df_data["pdays"] == 999, 1, 0)
    df_data["not_working"] = np.where(np.in1d(df_data["job"], ["student", "retired", "unemployed"]), 1, 0)
    ]] *)
Definition not_working_jobs : list value :=
  [VText "student"; VText "retired"; VText "unemployed"].

Definition add_indicators (df_data : table) : reply table :=
  pdays ← getitem df_data "pdays";
  df_data ← setitem df_data "no_previous_contact" (where_eq pdays (VInt 999));
  job ← getitem df_data "job";
  setitem df_data "not_working" (where_in1d job not_working_jobs).

(** [[
    df_model_data = df_data.drop(["duration", "emp.var.rate", "cons.price.idx",
                                  "cons.conf.idx", "euribor3m", "nr.employed"], axis=1)
    ]] *)
Definition unnecessary : list string :=
  ["duration"; "emp.var.rate"; "cons.price.idx"; "cons.conf.idx";
   "euribor3m"; "nr.employed"].

Definition drop_unnecessary (df_data : table) : reply table :=
  drop_columns df_data unnecessary.

(** [[
    df_model_data = pd.concat(
        [
            df_model_data["y_yes"].rename("y"),
            df_model_data.drop(["y_no", "y_yes"], axis=1),
        ],
        axis=1,
    )
    ]] *)
Definition label_first (df_model_data : table) : reply table :=
  y ← getitem_rename df_model_data "y_yes";
  rest ← drop_columns df_model_data ["y_no"; "y_yes"];
  Ok (concat_series "y" y rest).

Section Prepare.

(** The conversion of the categorical variables to indicators, which the
    notebook leaves to the reader as [<convert the data here>]. *)
Variable convert : table -> reply table.

(** The cell that prepares the data. *)
Definition prepare (df_data : table) : reply table :=
  df_data ← add_indicators df_data;
  df_model_data ← drop_unnecessary df_data;
  df_model_data ← convert df_model_data;
  label_first df_model_data.

End Prepare.

(** [X_test_numpy = test_data.drop(["y"], axis=1).values], before
    [.values] *)
Definition features (test_data : table) : reply table :=
  drop_columns test_data ["y"].

(** A frame for the examples: two clients, one never contacted before and
    retired. *)
Definition two_clients : table :=
  Table 2 [("pdays", [VInt 999; VInt 3]);
           ("job", [VText "retired"; VText "admin."]);
           ("duration", [VInt 100; VInt 200]);
           ("emp.var.rate", [VInt 1; VInt 1]);
           ("cons.price.idx", [VInt 93; VInt 93]);
           ("cons.conf.idx", [VInt 36; VInt 36]);
           ("euribor3m", [VInt 4; VInt 4]);
           ("nr.employed", [VInt 5191; VInt 5191]);
           ("y", [VText "no"; VText "yes"])].

(** The frame of the two clients after a conversion. *)
Definition two_converted : table :=
  Table 2 [("pdays", [VInt 999; VInt 3]);
           ("no_previous_contact", [VInt 1; VInt 0]);
           ("y_no", [VInt 1; VInt 0]);
           ("y_yes", [VInt 0; VInt 1])].

(** A conversion for the examples: the indicators of the label only. *)
Definition label_dummies (d : table) : reply table :=
  y ← getitem d "y";
  d ← drop_columns d ["y"];
  d ← setitem d "y_no" (where_eq y (VText "no"));
  setitem d "y_yes" (where_eq y (VText "yes")).

End Bank.

(** ** What a trace shows *)

(** The statuses that the status queries of a trace returned, in order. *)
Definition observed (tr : list event) : list string :=
  omap (fun ev => match ev with Describe _ (Ok s) => Some s | _ => None end) tr.

Definition is_describe (ev : event) : bool :=
  match ev with Describe _ _ => true | _ => false end.

Definition is_step (ev : event) : bool :=
  match ev with Step _ => true | _ => false end.

(** The status queries of a trace, answered or not. *)
Definition queries (tr : list event) : list event :=
  filter (fun ev => is_describe ev = true) tr.

(** The sleeps of a trace, in seconds. *)
Definition sleeps (tr : list event) : list nat :=
  omap (fun ev => match ev with Sleep n => Some n | _ => None end) tr.

(** A list of actions without a status query, and one without a call to a
    service other than a status query. *)
Abbreviation quiet l := (Forall (fun ev => is_describe ev = false) l).
Abbreviation stepless l := (Forall (fun ev => is_step ev = false) l).

(** A response with a token that the fetch loop follows. *)
Abbreviation has_token r := (Textract.truthy (Textract.NextToken r) = true).

(** Membership in a list that is written out. *)
Ltac in_list H :=
  repeat (apply elem_of_cons in H as [H|H]; [by simplify_eq|]);
  by apply not_elem_of_nil in H.

(** The value of the status variable after a trace that began with the
    value [st]. *)
Definition last_status (st : option string) (tr : list event) : option string :=
  match last (observed tr) with
  | Some s => Some s
  | None => st
  end.

(** ** The common shape of the three loops

    A loop on a status variable: while [cond] holds of the variable, the
    actions [before], one status query whose answer is assigned to the
    variable, and the actions [after]. The variable is [None] before the
    first query of a cell, so that a query made ahead of a [while] is the
    iteration on [None]. *)
Section Polling.

Variable api : string.
Variable cond : option string -> bool.
Variable before : option string -> list event.
Variable after : option string -> list event.

Fixpoint polling (st : option string) (svc : list (reply string))
    : run (option string) :=
  if cond st then
    match svc with
    | [] => Run (before st) Waiting
    | Raise e :: _ => Run (before st ++ [Describe api (Raise e)]) (Raised e)
    | Ok s :: svc' =>
        emit (before st ++ Describe api (Ok s) :: after st)
             (polling (Some s) svc')
    end
  else Run [] (Exited st).

End Polling.

(** A run whose final value is a status, as a run on a status variable. *)
Definition as_variable (r : run string) : run (option string) :=
  Run (trace r)
      match result r with
      | Exited s => Exited (Some s)
      | Raised e => Raised e
      | Waiting => Waiting
      end.

(** The three cells as instances of the common shape. *)
Definition textract_cond (st : option string) : bool :=
  match st with Some s => String.eqb s "IN_PROGRESS" | None => true end.

Definition textract_after (st : option string) : list event :=
  match st with Some _ => [Print] | None => [] end.

Definition autopilot_cond (st : option string) : bool :=
  match st with Some s => negb (py_in s Autopilot.finished) | None => true end.

Definition autopilot_before (st : option string) : list event :=
  match st with Some _ => [] | None => [Print; Print] end.

Definition autopilot_after (st : option string) : list event :=
  match st with Some _ => [Print; Sleep 30] | None => [Print] end.

Definition hpo_before (st : option string) : list event :=
  match st with Some _ => [Print; Sleep 60] | None => [] end.

Definition textract_polling
    : option string -> list (reply string) -> run (option string) :=
  polling Textract.get_document_analysis textract_cond
          (fun _ => [Sleep 5]) textract_after.

Definition autopilot_polling
    : option string -> list (reply string) -> run (option string) :=
  polling Autopilot.describe_auto_ml_job autopilot_cond
          autopilot_before autopilot_after.

Definition hpo_polling
    : option string -> list (reply string) -> run (option string) :=
  polling Hpo.describe_hyper_parameter_tuning_job Hpo.unfinished
          hpo_before (fun _ => []).

(** ** Following the spec *)

(** Following the spec, "Poll(job status until terminal)": of the statuses
    that the service reports, each in progress or not, the client queries
    all up to and including the first that is not in progress, and exits
    then. The result is the number of queries and whether the client exits. *)
Fixpoint poll_until_terminal (in_progress : list bool) : nat * bool :=
  match in_progress with
  | [] => (0, false)
  | true :: rest =>
      let '(n, done) := poll_until_terminal rest in (S n, done)
  | false :: _ => (1, true)
  end.

(** The same of a run: the number of its status queries, and whether it ran
    to its end. *)
Definition summary {A} (r : run A) : nat * bool :=
  (length (queries (trace r)),
   match result r with Exited _ => true | _ => false end).

(** The poll and sleep actions of a trace, without the interval and without
    the service. *)
Inductive action : Type := Poll | Pause.

Definition actions (tr : list event) : list action :=
  omap (fun ev => match ev with
                  | Describe _ _ => Some Poll
                  | Sleep _ => Some Pause
                  | _ => None
                  end) tr.

(** The status queries and the sleeps of a trace in their order, the sleeps
    with their seconds: what a cell does towards the service and the
    clock. *)
Inductive tick : Type := Query | Wait (secs : nat).

Definition schedule (tr : list event) : list tick :=
  omap (fun ev => match ev with
                  | Describe _ _ => Some Query
                  | Sleep n => Some (Wait n)
                  | _ => None
                  end) tr.

(** Following the spec, "in progress / succeeded / failed": the three states
    of a job, and the status values of the services that name them. *)
Inductive job_state : Type := InProgress | Succeeded | Failed.

Definition state_of (status : string) : option job_state :=
  if py_in status ["IN_PROGRESS"; "InProgress"] then Some InProgress
  else if py_in status ["SUCCEEDED"; "Completed"] then Some Succeeded
  else if py_in status ["FAILED"; "Failed"] then Some Failed
  else None.

(** The status values that the condition of a loop compares with. *)
Definition textract_literals : list string := ["IN_PROGRESS"].
Definition autopilot_literals : list string := Autopilot.finished.
Definition hpo_literals : list string := ["InProgress"].

(** The slices [s[i : i+m]] for [i] in [range(0, len(s), m)]: the batches of
    the Comprehend Medical cell, for any size [m] of a batch. *)
Definition batches {A} (m : nat) (s : list A) : list (list A) :=
  (fun i => slice s i (i + m)) <$> range 0 (length s) m.

(** The value that the assignments [bs] give to [x], when one of them
    assigns to [x]: the value of the last that does. *)
Fixpoint binding (x : string) (bs : list (string * pyval)) : option pyval :=
  match bs with
  | [] => None
  | (y, v) :: bs' =>
      match binding x bs' with
      | Some w => Some w
      | None => if String.eqb x y then Some v else None
      end
  end.

(** The three splits of the tuning notebook:
    [[
    train_data, validation_data, test_data = np.split(
        df_model_data.sample(frac=1, random_state=1729),
        [int(0.7 * len(df_model_data)), int(0.9*len(df_model_data))],
    )
    ]]
    [shuffled] is the sample of the whole frame, the rows in the order that
    the generator gives them. *)
Definition train_validation_test (df_model_data shuffled : frame)
    : list frame :=
  Hpo.np_split shuffled [int_times double_0_7 (length df_model_data);
                         int_times double_0_9 (length df_model_data)].

(** The splits [splits] partition the frame [df]: every row of [df] is in
    exactly one of them, once, and they have no other row. *)
Definition partition_of (splits : list frame) (df : frame) : Prop :=
  concat splits ≡ₚ df /\ NoDup (concat splits).

(** The key under which the Textract notebook uploads the report: the value
    of [S3_path]. *)
Definition report_key : string :=
  "sagemaker/medical_notes/data/sample_report.pdf".

(** ** What the claims say of a poll cell *)

(** [poll] queries the status until it is terminal, that is until [repeats]
    does not hold of it, and is left exactly then: when it is left, the
    status observed last is terminal and is the final value; on statuses of
    which [repeats] holds followed by one of which it does not, it queries
    all of these and no more, and is left; and as long as [repeats] holds of
    every status it is not left. *)
Definition polls_until_terminal {A} (poll : list (reply string) -> run A)
    (status_of : A -> option string) (repeats : string -> Prop) : Prop :=
  (forall svc a, result (poll svc) = Exited a ->
     exists s, status_of a = Some s /\ ~ repeats s
               /\ last (observed (trace (poll svc))) = Some s)
  /\ (forall pre s rest, Forall repeats pre -> ~ repeats s ->
        exists a, result (poll ((Ok <$> pre ++ [s]) ++ rest)) = Exited a
                  /\ status_of a = Some s
                  /\ observed (trace (poll ((Ok <$> pre ++ [s]) ++ rest)))
                     = pre ++ [s])
  /\ (forall pre, Forall repeats pre -> result (poll (Ok <$> pre)) = Waiting).

(** In every run of [cell], a call to a service other than a status query
    comes after a status query that returned a terminal status, and no
    status was observed in between. *)
Definition downstream_after_terminal {A} (cell : list (reply string) -> run A)
    (repeats : string -> Prop) : Prop :=
  forall svc pre api post,
    trace (cell svc) = pre ++ Step api :: post ->
    exists s, last (observed pre) = Some s /\ ~ repeats s.

(** [loop] sleeps [secs] seconds whenever it sleeps, sleeps exactly once
    between two consecutive status queries, and calls a service for nothing
    but status queries. *)
Definition fixed_interval {A} (loop : list (reply string) -> run A)
    (secs : nat) : Prop :=
  forall svc,
    (forall n, n ∈ sleeps (trace (loop svc)) -> n = secs)
    /\ (forall l1 a1 r1 mid a2 r2 l2,
          trace (loop svc)
          = l1 ++ Describe a1 r1 :: mid ++ Describe a2 r2 :: l2 ->
          quiet mid ->
          sleeps mid = [secs])
    /\ stepless (trace (loop svc)).

(** The claim on the intervals: each of the three poll cells has a fixed
    interval, of 5, 30 and 60 seconds. *)
Definition fixed_intervals : Prop :=
  fixed_interval Textract.poll 5
  /\ fixed_interval Autopilot.poll 30
  /\ fixed_interval Hpo.poll 60.

(** [cell] has the fixed interval [secs] but between its first two status
    queries, which follow each other without a sleep. *)
Definition fixed_interval_after_first {A} (cell : list (reply string) -> run A)
    (secs : nat) : Prop :=
  forall svc,
    (forall n, n ∈ sleeps (trace (cell svc)) -> n = secs)
    /\ (forall l1 a1 r1 mid a2 r2 l2,
          trace (cell svc)
          = l1 ++ Describe a1 r1 :: mid ++ Describe a2 r2 :: l2 ->
          quiet mid ->
          sleeps mid = match queries l1 with [] => [] | _ :: _ => [secs] end)
    /\ stepless (trace (cell svc)).

(** On [k] statuses of which [repeats] holds followed by one of which it
    does not, whatever the service would report after these, the queries and
    sleeps of [poll] are [ticks k]. *)
Definition schedule_of {A} (poll : list (reply string) -> run A)
    (repeats : string -> Prop) (ticks : nat -> list tick) : Prop :=
  forall pre s rest, Forall repeats pre -> ~ repeats s ->
    schedule (trace (poll ((Ok <$> pre ++ [s]) ++ rest))) = ticks (length pre).

(** An exception of a status query leaves [poll] as it is, after the
    statuses [pre] that kept it going: the failed query is the last action,
    and there is no query after it. And an exception that leaves [poll] is
    one that a status query raised. *)
Definition propagates {A} (poll : list (reply string) -> run A)
    (repeats : string -> Prop) : Prop :=
  (forall pre e rest, Forall repeats pre ->
     result (poll ((Ok <$> pre) ++ Raise e :: rest)) = Raised e
     /\ (exists api, last (trace (poll ((Ok <$> pre) ++ Raise e :: rest)))
                     = Some (Describe api (Raise e)))
     /\ length (queries (trace (poll ((Ok <$> pre) ++ Raise e :: rest))))
        = S (length pre))
  /\ (forall svc e, result (poll svc) = Raised e -> Raise e ∈ svc).

(** The claim that the three clients are one function: on reported statuses
    that are in progress or not at the same places, the three cells perform
    the same poll and sleep actions. *)
Definition same_actions : Prop :=
  forall (in_progress : list bool) (svcT svcA svcH : list string),
    (fun s => String.eqb s "IN_PROGRESS") <$> svcT = in_progress ->
    (fun s => negb (py_in s Autopilot.finished)) <$> svcA = in_progress ->
    (fun s => String.eqb s "InProgress") <$> svcH = in_progress ->
    actions (trace (Textract.poll (Ok <$> svcT)))
    = actions (trace (Autopilot.poll (Ok <$> svcA)))
    /\ actions (trace (Autopilot.poll (Ok <$> svcA)))
       = actions (trace (Hpo.poll (Ok <$> svcH))).

(** The claim that a loop branches on no fourth status: every status value
    that the condition of a loop compares with names one of the three
    states. *)
Definition three_states_only : Prop :=
  forall s, s ∈ textract_literals ++ autopilot_literals ++ hpo_literals ->
            is_Some (state_of s).

(** The claim on the batches: every text submitted to [detect_entities_v2]
    is at most 20,000 bytes long. *)
Definition batches_within_bytes : Prop :=
  forall pageText : str,
    Forall (fun c => utf8_len c <= Textract.maxLength)
           (Textract.submitted pageText).

(** ** What more the poll cells show *)

(** The seconds that a trace sleeps in all. *)
Definition slept (tr : list event) : nat := sum_list (sleeps tr).

(** On [k] statuses of which [repeats] holds followed by one of which it
    does not, [poll] sleeps [total k] seconds in all. *)
Definition sleeps_in_all {A} (poll : list (reply string) -> run A)
    (repeats : string -> Prop) (total : nat -> nat) : Prop :=
  forall pre s rest, Forall repeats pre -> ~ repeats s ->
    slept (trace (poll ((Ok <$> pre ++ [s]) ++ rest))) = total (length pre).

(** The step [api] of [cell], which follows [poll], is made after every
    terminal status, whatever it is, and [cell] makes no step when [poll] is
    not left. *)
Definition runs_on_every_terminal {A} (cell poll : list (reply string) -> run A)
    (repeats : string -> Prop) (api : string) : Prop :=
  (forall pre s rest, Forall repeats pre -> ~ repeats s ->
     Step api ∈ trace (cell ((Ok <$> pre ++ [s]) ++ rest)))
  /\ (forall svc, (forall a, result (poll svc) <> Exited a) ->
        stepless (trace (cell svc))).

(** * Properties *)

(** ** Lists of events *)

Lemma observed_app l1 l2 : observed (l1 ++ l2) = observed l1 ++ observed l2.
Proof. apply omap_app. Qed.

Lemma observed_quiet l : quiet l -> observed l = [].
Proof.
  induction 1 as [|ev l Hev _ IH]; [done|].
  destruct ev; simpl in *; try done.
Qed.

Lemma queries_app l1 l2 : queries (l1 ++ l2) = queries l1 ++ queries l2.
Proof. apply filter_app. Qed.

Lemma queries_quiet l : quiet l -> queries l = [].
Proof.
  induction 1 as [|ev l Hev _ IH]; [done|].
  unfold queries in *. rewrite filter_cons_False; [done|]. by rewrite Hev.
Qed.

Lemma quiet_no_query pre l d r :
  quiet pre -> is_describe d = true -> pre <> l ++ d :: r.
Proof.
  intros Hq Hd ->. rewrite Forall_app, Forall_cons in Hq.
  destruct Hq as (_ & Hq & _). congruence.
Qed.

(** A prefix without an action of some kind is a prefix of what comes before
    any action of that kind. *)
Lemma strip_without (p : event -> bool) pre tr l d r :
  Forall (fun ev => p ev = false) pre -> p d = true ->
  pre ++ tr = l ++ d :: r ->
  exists l', l = pre ++ l' /\ tr = l' ++ d :: r.
Proof.
  intros Hq Hd. revert l. induction Hq as [|x pre Hx _ IH]; intros l H.
  - by exists l.
  - destruct l as [|y l]; simpl in H.
    + injection H as -> _. congruence.
    + injection H as -> H. destruct (IH _ H) as (l' & -> & ->). by exists l'.
Qed.

Lemma strip_quiet pre tr l d r :
  quiet pre -> is_describe d = true ->
  pre ++ tr = l ++ d :: r ->
  exists l', l = pre ++ l' /\ tr = l' ++ d :: r.
Proof. apply strip_without. Qed.

(** The first query of a trace is where it is. *)
Lemma first_query pre1 pre2 d1 d2 r1 r2 :
  quiet pre1 -> quiet pre2 ->
  is_describe d1 = true -> is_describe d2 = true ->
  pre1 ++ d1 :: r1 = pre2 ++ d2 :: r2 ->
  pre1 = pre2 /\ d1 = d2 /\ r1 = r2.
Proof.
  intros H1 H2 Hd1 Hd2 H.
  destruct (strip_quiet _ _ _ _ _ H1 Hd2 H) as (l' & -> & H').
  destruct l' as [|x l']; simplify_eq/=.
  - by rewrite app_nil_r.
  - rewrite Forall_app, Forall_cons in H2. destruct H2 as (_ & ? & _).
    congruence.
Qed.

(** ** The common shape *)

Section PollingFacts.

Variable api : string.
Variable cond : option string -> bool.
Variable before : option string -> list event.
Variable after : option string -> list event.
Hypothesis before_quiet : forall st, quiet (before st).
Hypothesis after_quiet : forall st, quiet (after st).

Local Abbreviation loop := (polling api cond before after).

Lemma polling_stop st svc :
  cond st = false -> loop st svc = Run [] (Exited st).
Proof. intros H. destruct svc; simpl; by rewrite H. Qed.

Lemma polling_next st s svc :
  cond st = true ->
  loop st (Ok s :: svc)
  = emit (before st ++ Describe api (Ok s) :: after st) (loop (Some s) svc).
Proof. intros H. simpl. by rewrite H. Qed.

Lemma observed_iteration st s tr :
  observed ((before st ++ Describe api (Ok s) :: after st) ++ tr)
  = s :: observed tr.
Proof.
  rewrite !observed_app, (observed_quiet (before st)) by done.
  simpl. by rewrite (observed_quiet (after st)).
Qed.

(** Every action of the loop is one of [before], one of [after], or a query
    of [api]. *)
Lemma polling_Forall (P : event -> Prop) st svc :
  (forall st', Forall P (before st')) ->
  (forall st', Forall P (after st')) ->
  (forall r, P (Describe api r)) ->
  Forall P (trace (loop st svc)).
Proof.
  intros Hb Ha Hd. revert st.
  induction svc as [|r svc IH]; intros st; simpl; destruct (cond st); simpl;
    try done.
  destruct r as [s|e]; simpl.
  - rewrite Forall_app. split; [|apply IH].
    rewrite Forall_app. split; [done|]. by constructor.
  - rewrite Forall_app. split; [done|]. constructor; [done|constructor].
Qed.

(** When the loop is left, its condition is false of the status variable,
    which holds the status observed last. *)
Lemma polling_exit st svc st' :
  result (loop st svc) = Exited st' ->
  cond st' = false /\ st' = last_status st (trace (loop st svc)).
Proof.
  revert st. induction svc as [|r svc IH]; intros st; simpl;
    destruct (cond st) eqn:Hc; simpl; try done;
    try (by intros [= <-]).
  destruct r as [s|e]; simpl; [|done].
  intros H. destruct (IH _ H) as [H1 H2]. split; [done|].
  rewrite H2. unfold last_status. rewrite observed_iteration.
  rewrite last_cons. by destruct (last _).
Qed.

(** The loop goes on as long as the statuses keep its condition true, and
    is left at the first status that does not, without a further query. *)
Lemma polling_first_terminal st pre s rest :
  cond st = true ->
  Forall (fun s' => cond (Some s') = true) pre ->
  cond (Some s) = false ->
  result (loop st ((Ok <$> pre ++ [s]) ++ rest)) = Exited (Some s)
  /\ observed (trace (loop st ((Ok <$> pre ++ [s]) ++ rest))) = pre ++ [s].
Proof.
  intros Hst Hpre Hs. revert st Hst.
  induction Hpre as [|p pre Hp _ IH]; intros st Hst.
  - change ((Ok <$> [] ++ [s]) ++ rest) with (Ok s :: rest).
    rewrite polling_next, polling_stop by done. unfold emit; simpl.
    rewrite app_nil_r. split; [done|].
    by rewrite <-(app_nil_r (_ ++ _ :: _)), observed_iteration.
  - change ((Ok <$> (p :: pre) ++ [s]) ++ rest)
      with (Ok p :: ((Ok <$> pre ++ [s]) ++ rest)).
    rewrite polling_next by done. destruct (IH _ Hp) as [H1 H2].
    unfold emit; cbn [trace result].
    split; [done|]. rewrite observed_iteration. by rewrite H2.
Qed.

(** As long as no status makes the condition false, the loop is not left. *)
Lemma polling_waits st pre :
  cond st = true ->
  Forall (fun s' => cond (Some s') = true) pre ->
  result (loop st (Ok <$> pre)) = Waiting.
Proof.
  intros Hst Hpre. revert st Hst.
  induction Hpre as [|p pre Hp _ IH]; intros st Hst; simpl; rewrite Hst;
    simpl; [done|]. by apply IH.
Qed.

(** An exception of the query leaves the loop at once: the failed query is
    the last action. *)
Lemma polling_raises st pre e rest :
  cond st = true ->
  Forall (fun s' => cond (Some s') = true) pre ->
  result (loop st ((Ok <$> pre) ++ Raise e :: rest)) = Raised e
  /\ last (trace (loop st ((Ok <$> pre) ++ Raise e :: rest)))
     = Some (Describe api (Raise e))
  /\ observed (trace (loop st ((Ok <$> pre) ++ Raise e :: rest))) = pre.
Proof.
  intros Hst Hpre. revert st Hst.
  induction Hpre as [|p pre Hp _ IH]; intros st Hst.
  - simpl. rewrite Hst. simpl.
    rewrite last_snoc, observed_app, observed_quiet by done. done.
  - change ((Ok <$> p :: pre) ++ Raise e :: rest)
      with (Ok p :: ((Ok <$> pre) ++ Raise e :: rest)).
    rewrite polling_next by done. destruct (IH _ Hp) as (H1 & H2 & H3).
    unfold emit; cbn [trace result]. split; [done|]. split.
    + rewrite last_app, H2. done.
    + rewrite observed_iteration. by rewrite H3.
Qed.

(** An exception that leaves the loop is one that a query raised. *)
Lemma polling_raised st svc e :
  result (loop st svc) = Raised e -> Raise e ∈ svc.
Proof.
  revert st. induction svc as [|r svc IH]; intros st; simpl;
    destruct (cond st); simpl; try done.
  destruct r as [s|e']; simpl.
  - intros H. right. by eapply IH.
  - intros [= ->]. left.
Qed.

(** A trace of the loop has no query, or begins with [before] and a query. *)
Lemma polling_head st svc :
  quiet (trace (loop st svc))
  \/ exists r rest, trace (loop st svc) = before st ++ Describe api r :: rest.
Proof.
  destruct svc as [|[s|e] svc]; simpl; destruct (cond st); simpl;
    try (left; by constructor); try (left; done).
  - right. eexists _, _. by rewrite <-app_assoc.
  - right. by eexists _, _.
Qed.

(** Between two consecutive queries of the loop there are the actions
    [after] of one iteration and the actions [before] of the next, and
    nothing else; the first of the two was answered. The iteration is the
    first of the run, or one on a status. *)
Lemma polling_gap st svc l1 a1 r1 mid a2 r2 l2 :
  trace (loop st svc) = l1 ++ Describe a1 r1 :: mid ++ Describe a2 r2 :: l2 ->
  quiet mid ->
  exists s1 st1, r1 = Ok s1 /\ mid = after st1 ++ before (Some s1)
                 /\ (st1 = st \/ is_Some st1).
Proof.
  intros Htr Hmid. revert st l1 Htr.
  induction svc as [|r svc IH]; intros st l1; simpl;
    destruct (cond st) eqn:Hc; simpl; intros Htr;
    try (by destruct l1).
  - by apply quiet_no_query in Htr.
  - destruct r as [s|e]; simpl in Htr.
    + rewrite <-app_assoc in Htr.
      apply strip_quiet in Htr as (l' & -> & Htr); [|done..].
      destruct l' as [|x l']; simpl in Htr.
      * injection Htr as <- <- Htr. exists s, st. split; [done|].
        split; [|by left].
        destruct (polling_head (Some s) svc) as [Hq|(r' & rest & Hr)].
        -- by apply quiet_no_query in Htr; [| apply Forall_app |].
        -- rewrite Hr, app_assoc in Htr.
           apply first_query in Htr as (? & _); [done|..|done|done]; [|done].
           by apply Forall_app.
      * injection Htr as <- Htr.
        apply strip_quiet in Htr as (l'' & -> & Htr); [|done..].
        destruct (IH _ _ Htr) as (s1 & st1 & ? & ? & [->|?]);
          exists s1; eexists; (split; [done|]); (split; [done|]);
          right; done.
    + apply strip_quiet in Htr as (l' & -> & Htr); [|done..].
      destruct l' as [|x l']; simpl in Htr.
      * injection Htr as _ _ Htr. by destruct mid.
      * injection Htr as _ Htr. by destruct l'.
Qed.

(** The number of queries and the way the loop ends depend only on which of
    the reported statuses keep the condition true, as the spec has it. *)
Lemma polling_summary st l :
  cond st = true ->
  summary (loop st (Ok <$> l))
  = poll_until_terminal ((fun s => cond (Some s)) <$> l).
Proof.
  revert st. induction l as [|s l IH]; intros st Hst.
  - simpl. rewrite Hst. unfold summary; simpl. by rewrite queries_quiet.
  - change (Ok <$> s :: l) with (Ok s :: (Ok <$> l)).
    rewrite polling_next by done. rewrite fmap_cons.
    assert (Hq : forall r : run (option string),
      summary (emit (before st ++ Describe api (Ok s) :: after st) r)
      = (S (summary r).1, (summary r).2)).
    { intros r. unfold summary, emit; simpl.
      rewrite !queries_app, (queries_quiet (before st)) by done.
      unfold queries at 1. rewrite filter_cons_True by done.
      fold (queries (after st)). by rewrite (queries_quiet (after st)). }
    rewrite Hq. destruct (cond (Some s)) eqn:Hs.
    + rewrite IH by done. simpl. by destruct (poll_until_terminal _).
    + by rewrite polling_stop.
Qed.

End PollingFacts.

(** ** The three loops have the common shape *)

Lemma as_variable_emit evs r :
  as_variable (emit evs r) = emit evs (as_variable r).
Proof. done. Qed.

Lemma textract_while_shape s svc :
  as_variable (Textract.poll_while s svc) = textract_polling (Some s) svc.
Proof.
  unfold textract_polling.
  revert s. induction svc as [|r svc IH]; intros s; [|destruct r as [s'|e]];
    simpl; destruct (String.eqb s "IN_PROGRESS"); try done.
  rewrite as_variable_emit. f_equal. apply IH.
Qed.

Lemma textract_shape svc :
  as_variable (Textract.poll svc) = textract_polling None svc.
Proof.
  destruct svc as [|[s|e] svc]; try done.
  unfold Textract.poll. rewrite as_variable_emit, textract_while_shape. done.
Qed.

Lemma autopilot_while_shape s svc :
  as_variable (Autopilot.poll_while s svc) = autopilot_polling (Some s) svc.
Proof.
  unfold autopilot_polling.
  revert s. induction svc as [|r svc IH]; intros s; [|destruct r as [s'|e]];
    simpl; destruct (negb (py_in s Autopilot.finished)); try done.
  rewrite as_variable_emit. f_equal. apply IH.
Qed.

Lemma autopilot_shape svc :
  as_variable (Autopilot.poll svc) = autopilot_polling None svc.
Proof.
  destruct svc as [|[s|e] svc]; try done.
  unfold Autopilot.poll. rewrite as_variable_emit, autopilot_while_shape. done.
Qed.

Lemma hpo_while_shape st svc : Hpo.poll_while st svc = hpo_polling st svc.
Proof.
  unfold hpo_polling.
  revert st. induction svc as [|r svc IH]; intros st; [|destruct r as [s'|e]];
    simpl; destruct (Hpo.unfinished st); try done; try (by destruct st).
Qed.

Lemma textract_after_quiet st : quiet (textract_after st).
Proof. destruct st; repeat constructor. Qed.

Lemma autopilot_before_quiet st : quiet (autopilot_before st).
Proof. destruct st; repeat constructor. Qed.

Lemma autopilot_after_quiet st : quiet (autopilot_after st).
Proof. destruct st; repeat constructor. Qed.

Lemma hpo_before_quiet st : quiet (hpo_before st).
Proof. destruct st; repeat constructor. Qed.

Lemma py_in_spec s t : py_in s t = true <-> s ∈ t.
Proof.
  unfold py_in. rewrite existsb_exists. split.
  - intros (x & Hx & Heq). apply String.eqb_eq in Heq as ->.
    by apply list_elem_of_In.
  - intros H. exists s. split; [by apply list_elem_of_In|apply String.eqb_refl].
Qed.

Lemma py_in_false s t : py_in s t = false <-> s ∉ t.
Proof. rewrite <-py_in_spec. by destruct (py_in s t). Qed.

Lemma trace_as_variable r : trace (as_variable r) = trace r.
Proof. done. Qed.

Lemma result_and_then {A} (r : run A) next : result (and_then r next) = result r.
Proof. unfold and_then. by destruct (result r) eqn:H. Qed.

Lemma trace_and_then {A} (r : run A) next :
  trace (and_then r next)
  = trace r ++ match result r with Exited _ => next | _ => [] end.
Proof. unfold and_then. destruct (result r); simpl; by rewrite ?app_nil_r. Qed.

Lemma observed_and_then {A} (r : run A) next :
  quiet next -> observed (trace (and_then r next)) = observed (trace r).
Proof.
  intros Hq. rewrite trace_and_then, observed_app.
  destruct (result r); simpl; rewrite ?(observed_quiet next) by done;
    by rewrite app_nil_r.
Qed.

(** ** Polling until the status is terminal *)

Section PollingClaims.

Variable api : string.
Variable cond : option string -> bool.
Variable before after : option string -> list event.
Hypothesis before_quiet : forall st, quiet (before st).
Hypothesis after_quiet : forall st, quiet (after st).

Local Abbreviation loop := (polling api cond before after).
Local Abbreviation goes_on := (fun s => cond (Some s) = true).

Lemma polling_until_terminal st :
  cond st = true -> polls_until_terminal (loop st) id goes_on.
Proof.
  intros Hst. repeat split.
  - intros svc a Ha.
    destruct (polling_exit api cond before after before_quiet after_quiet
                _ _ _ Ha) as [Hc Hl].
    unfold last_status in Hl. destruct (last _) as [s|] eqn:Hlast.
    + exists s. subst a. split; [done|]. split; [by rewrite Hc|done].
    + subst a. congruence.
  - intros pre s rest Hpre Hs. exists (Some s).
    apply not_true_is_false in Hs.
    destruct (polling_first_terminal api cond before after before_quiet
                after_quiet st pre s rest Hst Hpre Hs) as [H1 H2].
    done.
  - intros pre Hpre. by apply polling_waits.
Qed.

Lemma polling_propagates st :
  cond st = true -> propagates (loop st) goes_on.
Proof.
  intros Hst. split.
  - intros pre e rest Hpre.
    destruct (polling_raises api cond before after before_quiet after_quiet
                st pre e rest Hst Hpre) as (H1 & H2 & H3).
    split; [done|]. split; [by exists api|].
    pose proof (polling_summary api cond before after before_quiet after_quiet
                  st pre Hst) as Hsum.
    clear H1 H2 H3. revert st Hst Hsum.
    induction Hpre as [|p pre Hp Hpre IH]; intros st Hst _.
    + simpl. rewrite Hst. simpl. rewrite queries_app, queries_quiet by done.
      done.
    + change ((Ok <$> p :: pre) ++ Raise e :: rest)
        with (Ok p :: ((Ok <$> pre) ++ Raise e :: rest)).
      rewrite polling_next by done. unfold emit; cbn [trace].
      rewrite !queries_app, (queries_quiet (before st)) by done.
      rewrite app_nil_l. unfold queries at 1.
      rewrite filter_cons_True by done. fold (queries (after st)).
      rewrite (queries_quiet (after st)) by done. simpl. f_equal.
      apply IH; [done|]. by apply polling_summary.
  - intros svc e. apply polling_raised.
Qed.

End PollingClaims.

Lemma polls_until_terminal_of_shape (poll : list (reply string) -> run string)
    gen (repeats repeats' : string -> Prop) :
  (forall svc, as_variable (poll svc) = gen svc) ->
  (forall s, repeats s <-> repeats' s) ->
  polls_until_terminal gen id repeats' ->
  polls_until_terminal poll Some repeats.
Proof.
  intros Hshape Hrep (H1 & H2 & H3). repeat split.
  - intros svc a Ha.
    destruct (H1 svc (Some a)) as (s & Hs & Hn & Hl).
    { rewrite <-Hshape. simpl. by rewrite Ha. }
    exists s. rewrite <-Hshape in Hl. by rewrite Hrep.
  - intros pre s rest Hpre Hs.
    destruct (H2 pre s rest) as (a & Ha & Hst & Hobs).
    { eapply Forall_impl; [done|]. intros ?. apply Hrep. }
    { by rewrite <-Hrep. }
    simpl in Hst. subst a. rewrite <-Hshape in Ha, Hobs. exists s.
    simpl in Ha. destruct (result (poll _)); by simplify_eq.
  - intros pre Hpre. specialize (H3 pre). rewrite <-Hshape in H3. simpl in H3.
    destruct (result (poll _)); try done; exfalso.
    all: assert (Hw : Forall repeats' pre)
      by (eapply Forall_impl; [done|]; intros ?; apply Hrep).
    all: by specialize (H3 Hw).
Qed.

Lemma textract_polls_until_terminal :
  polls_until_terminal Textract.poll Some (fun s => s = "IN_PROGRESS").
Proof.
  eapply polls_until_terminal_of_shape; [apply textract_shape| |].
  2: { apply polling_until_terminal; [by repeat constructor
                                     |apply textract_after_quiet|done]. }
  intros s. simpl. by rewrite String.eqb_eq.
Qed.

Lemma autopilot_polls_until_terminal :
  polls_until_terminal Autopilot.poll Some (fun s => s ∉ Autopilot.finished).
Proof.
  eapply polls_until_terminal_of_shape; [apply autopilot_shape| |].
  2: { apply polling_until_terminal; [apply autopilot_before_quiet
                                     |apply autopilot_after_quiet|done]. }
  intros s. simpl. rewrite negb_true_iff. by rewrite py_in_false.
Qed.

Lemma hpo_polls_until_terminal :
  polls_until_terminal Hpo.poll id (fun s => s = "InProgress").
Proof.
  assert (H : polls_until_terminal (hpo_polling None) id
                (fun s => s = "InProgress")).
  { destruct (polling_until_terminal
                Hpo.describe_hyper_parameter_tuning_job Hpo.unfinished
                hpo_before (fun _ => []) hpo_before_quiet
                (fun _ => Forall_nil_2 _) None eq_refl) as (H1 & H2 & H3).
    repeat split.
    - intros svc a Ha. destruct (H1 svc a Ha) as (s & ? & Hn & ?).
      exists s. simpl in Hn. by rewrite String.eqb_eq in Hn.
    - intros pre s rest Hpre Hs. apply H2.
      + eapply Forall_impl; [done|]. intros ? ->. done.
      + simpl. by rewrite String.eqb_eq.
    - intros pre Hpre. apply H3.
      eapply Forall_impl; [done|]. intros ? ->. done. }
  destruct H as (H1 & H2 & H3). unfold Hpo.poll. repeat split.
  - intros svc a. rewrite result_and_then, observed_and_then
      by repeat constructor. rewrite hpo_while_shape. apply H1.
  - intros pre s rest Hpre Hs. rewrite result_and_then, observed_and_then
      by repeat constructor. rewrite hpo_while_shape. by apply H2.
  - intros pre Hpre. rewrite result_and_then, hpo_while_shape. by apply H3.
Qed.

(** C2. Every poll cell queries the job status until it is terminal and is
    left exactly then. The Textract cell goes on while the status is
    ["IN_PROGRESS"] and is left on any other; the Autopilot cell goes on while
    the status is not one of ['Failed'], ['Completed'], ['Stopped']; the
    tuning cell goes on while the status is ["InProgress"] or not fetched.
    In each, the status observed last when the cell is left is terminal, so
    that it is never the status in progress. *)
Theorem polls_until_status_terminal :
  polls_until_terminal Textract.poll Some (fun s => s = "IN_PROGRESS")
  /\ polls_until_terminal Autopilot.poll Some (fun s => s ∉ Autopilot.finished)
  /\ polls_until_terminal Hpo.poll id (fun s => s = "InProgress").
Proof.
  split; [apply textract_polls_until_terminal|].
  split; [apply autopilot_polls_until_terminal|].
  apply hpo_polls_until_terminal.
Qed.

Lemma polls_until_status_terminal_witness :
  exists a,
    result (Textract.poll ((Ok <$> ["IN_PROGRESS"] ++ ["SUCCEEDED"]) ++ []))
    = Exited a
    /\ Some a = Some "SUCCEEDED"
    /\ observed (trace (Textract.poll
                          ((Ok <$> ["IN_PROGRESS"] ++ ["SUCCEEDED"]) ++ [])))
       = ["IN_PROGRESS"] ++ ["SUCCEEDED"].
Proof.
  destruct polls_until_status_terminal as ((_ & H & _) & _).
  apply H; [by repeat constructor | discriminate].
Defined.

(** ** Downstream steps *)

Lemma textract_stepless svc : stepless (trace (Textract.poll svc)).
Proof.
  rewrite <-trace_as_variable, textract_shape.
  apply polling_Forall; [by repeat constructor| |done].
  intros [?|]; by repeat constructor.
Qed.

Lemma autopilot_stepless svc : stepless (trace (Autopilot.poll svc)).
Proof.
  rewrite <-trace_as_variable, autopilot_shape.
  apply polling_Forall; [| |done]; intros [?|]; by repeat constructor.
Qed.

Lemma hpo_while_stepless st svc : stepless (trace (Hpo.poll_while st svc)).
Proof.
  rewrite hpo_while_shape.
  apply polling_Forall; [|done|done]. intros [?|]; by repeat constructor.
Qed.

Lemma hpo_stepless svc : stepless (trace (Hpo.poll svc)).
Proof.
  unfold Hpo.poll. rewrite trace_and_then. apply Forall_app. split.
  - apply hpo_while_stepless.
  - destruct (result _); by repeat constructor.
Qed.

(** A step that follows a poll cell is reached only when the cell has been
    left on a terminal status. *)
Lemma downstream_of_poll {A} (poll : list (reply string) -> run A)
    status_of repeats next :
  polls_until_terminal poll status_of repeats ->
  (forall svc, stepless (trace (poll svc))) ->
  (forall l1 l2, next = l1 ++ l2 -> observed l1 = []) ->
  downstream_after_terminal (fun svc => and_then (poll svc) next) repeats.
Proof.
  intros (Hexit & _ & _) Hsteps Hnext svc pre api post Htr.
  rewrite trace_and_then in Htr.
  apply (strip_without is_step) in Htr as (l' & -> & Htr); [|done..].
  destruct (result (poll svc)) as [a| |] eqn:Hres; try (by destruct l').
  destruct (Hexit svc a Hres) as (s & _ & Hs & Hlast).
  exists s. split; [|done].
  by rewrite observed_app, (Hnext _ _ Htr), app_nil_r.
Qed.

Lemma observed_prefix next :
  quiet next -> forall l1 l2, next = l1 ++ l2 -> observed l1 = [].
Proof.
  intros Hq l1 l2 ->. apply Forall_app in Hq as [Hq _]. by apply observed_quiet.
Qed.

(** C3. In every run of a notebook, the step after the poll cell is not
    reached before a terminal status has been observed: the result pages of
    Textract are fetched only after a status other than ["IN_PROGRESS"], the
    best candidate of Autopilot is looked up only after one of ['Failed'],
    ['Completed'], ['Stopped'], and the tuner is deployed only after a
    status other than ["InProgress"]. *)
Theorem downstream_only_after_terminal :
  downstream_after_terminal Textract.poll_then_fetch
    (fun s => s = "IN_PROGRESS")
  /\ downstream_after_terminal Autopilot.poll_then_best_candidate
       (fun s => s ∉ Autopilot.finished)
  /\ downstream_after_terminal Hpo.poll_then_deploy
       (fun s => s = "InProgress").
Proof.
  split; [|split].
  - eapply downstream_of_poll;
      [apply textract_polls_until_terminal|apply textract_stepless|].
    apply observed_prefix. by repeat constructor.
  - eapply downstream_of_poll;
      [apply autopilot_polls_until_terminal|apply autopilot_stepless|].
    apply observed_prefix. by repeat constructor.
  - eapply downstream_of_poll;
      [apply hpo_polls_until_terminal|apply hpo_stepless|].
    apply observed_prefix. by repeat constructor.
Qed.

Lemma downstream_only_after_terminal_witness :
  exists s,
    last (observed [Sleep 5;
                    Describe Textract.get_document_analysis (Ok "SUCCEEDED");
                    Sleep 5]) = Some s
    /\ s <> "IN_PROGRESS".
Proof.
  destruct downstream_only_after_terminal as (H & _).
  apply (H [Ok "SUCCEEDED"] _ Textract.get_document_analysis []).
  reflexivity.
Defined.

(** ** Fixed intervals *)

Lemma elem_of_sleeps n tr : n ∈ sleeps tr -> Sleep n ∈ tr.
Proof.
  unfold sleeps. rewrite list_elem_of_omap. intros (ev & Hev & Hn).
  destruct ev; simplify_eq. done.
Qed.

Lemma sleeps_app l1 l2 : sleeps (l1 ++ l2) = sleeps l1 ++ sleeps l2.
Proof. apply omap_app. Qed.

Section Intervals.

Variable api : string.
Variable cond : option string -> bool.
Variable before after : option string -> list event.
Variable secs : nat.
Hypothesis before_quiet : forall st, quiet (before st).
Hypothesis after_quiet : forall st, quiet (after st).
Hypothesis before_stepless : forall st, stepless (before st).
Hypothesis after_stepless : forall st, stepless (after st).
Hypothesis before_secs : forall st n, Sleep n ∈ before st -> n = secs.
Hypothesis after_secs : forall st n, Sleep n ∈ after st -> n = secs.

(** The loop has a fixed interval when it starts on [st], if one iteration
    and the next have one sleep of [secs] seconds between their queries. *)
Lemma polling_fixed_interval st :
  (forall st1 s1, st1 = st \/ is_Some st1 ->
                  sleeps (after st1 ++ before (Some s1)) = [secs]) ->
  fixed_interval (polling api cond before after st) secs.
Proof.
  intros Hgap svc. split; [|split].
  - intros n Hn. apply elem_of_sleeps in Hn.
    pose proof (polling_Forall api cond before after
                  (fun ev => forall m, ev = Sleep m -> m = secs) st svc) as HF.
    rewrite Forall_forall in HF. eapply HF; [| | |done|done].
    + intros st'. apply Forall_forall. intros ev Hev m ->.
      by eapply before_secs.
    + intros st'. apply Forall_forall. intros ev Hev m ->.
      by eapply after_secs.
    + done.
  - intros l1 a1 r1 mid a2 r2 l2 Htr Hmid.
    destruct (polling_gap api cond before after before_quiet after_quiet
                _ _ _ _ _ _ _ _ _ Htr Hmid) as (s1 & st1 & _ & -> & Hst1).
    by apply Hgap.
  - by apply polling_Forall.
Qed.

End Intervals.

Lemma fixed_interval_of_trace {A B} (l1 : list (reply string) -> run A)
    (l2 : list (reply string) -> run B) secs :
  (forall svc, trace (l1 svc) = trace (l2 svc)) ->
  fixed_interval l2 secs -> fixed_interval l1 secs.
Proof. intros Htr H svc. rewrite Htr. apply H. Qed.

Lemma textract_fixed_interval st :
  fixed_interval (textract_polling st) 5.
Proof.
  apply polling_fixed_interval.
  - by repeat constructor.
  - apply textract_after_quiet.
  - by repeat constructor.
  - intros [?|]; by repeat constructor.
  - intros _ n Hn. in_list Hn.
  - intros [?|] n Hn; simpl in Hn; in_list Hn.
  - by intros [?|] s1 _.
Qed.

Lemma autopilot_fixed_interval s :
  fixed_interval (autopilot_polling (Some s)) 30.
Proof.
  apply polling_fixed_interval.
  - apply autopilot_before_quiet.
  - apply autopilot_after_quiet.
  - intros [?|]; by repeat constructor.
  - intros [?|]; by repeat constructor.
  - intros [?|] n Hn; simpl in Hn; in_list Hn.
  - intros [?|] n Hn; simpl in Hn; in_list Hn.
  - intros st1 s1 [->|[? ->]]; done.
Qed.

Lemma hpo_fixed_interval st :
  fixed_interval (hpo_polling st) 60.
Proof.
  apply polling_fixed_interval.
  - apply hpo_before_quiet.
  - done.
  - intros [?|]; by repeat constructor.
  - done.
  - intros [?|] n Hn; simpl in Hn; in_list Hn.
  - intros _ n Hn. in_list Hn.
  - done.
Qed.

(** Every loop sleeps a fixed interval between consecutive status queries:
    whatever the statuses and however many the iterations, every sleep of a
    loop has the length of the loop, there is exactly one between two
    consecutive queries of the loop, and the loop calls the service for
    nothing but the status. For Textract and for the tuning job this also
    holds of the whole cell, with the query ahead of the loop. *)
Lemma loops_fixed_interval :
  (forall status, fixed_interval (Textract.poll_while status) 5)
  /\ (forall status, fixed_interval (Autopilot.poll_while status) 30)
  /\ (forall hpo_state, fixed_interval (Hpo.poll_while hpo_state) 60)
  /\ fixed_interval Textract.poll 5
  /\ fixed_interval Hpo.poll 60.
Proof.
  split; [|split; [|split; [|split]]].
  - intros status.
    eapply fixed_interval_of_trace;
      [|apply (textract_fixed_interval (Some status))].
    intros svc. by rewrite <-textract_while_shape.
  - intros status.
    eapply fixed_interval_of_trace; [|apply (autopilot_fixed_interval status)].
    intros svc. by rewrite <-autopilot_while_shape.
  - intros st.
    eapply fixed_interval_of_trace; [|apply (hpo_fixed_interval st)].
    intros svc. by rewrite hpo_while_shape.
  - eapply fixed_interval_of_trace; [|apply (textract_fixed_interval None)].
    intros svc. by rewrite <-textract_shape.
  - intros svc. destruct (hpo_fixed_interval None svc) as (H1 & H2 & H3).
    unfold Hpo.poll. rewrite trace_and_then, hpo_while_shape.
    split; [|split].
    + intros n. rewrite sleeps_app, elem_of_app. intros [Hn|Hn]; [by apply H1|].
      destruct (result _); simpl in Hn; in_list Hn.
    + intros l1 a1 r1 mid a2 r2 l2 Htr Hmid.
      destruct (result (hpo_polling None svc)).
      * replace (l1 ++ Describe a1 r1 :: mid ++ Describe a2 r2 :: l2)
          with ((l1 ++ Describe a1 r1 :: mid) ++ Describe a2 r2 :: l2) in Htr
          by (by rewrite <-app_assoc).
        destruct l2 as [|x l2 _] using rev_ind.
        { apply app_inj_tail in Htr as [_ [=]]. }
        rewrite app_comm_cons, app_assoc in Htr.
        apply app_inj_tail in Htr as [Htr _].
        rewrite <-app_assoc in Htr. by eapply H2.
      * rewrite app_nil_r in Htr. by eapply H2.
      * rewrite app_nil_r in Htr. by eapply H2.
    + apply Forall_app. split; [done|].
      destruct (result _); by repeat constructor.
Qed.

(** The first two queries of the Autopilot cell: the query ahead of the loop
    is followed by the query of the first iteration, and the loop sleeps
    after its query, also after the last. *)
Example autopilot_first_queries :
  trace (Autopilot.poll [Ok "InProgress"; Ok "Completed"])
  = [Print; Print;
     Describe Autopilot.describe_auto_ml_job (Ok "InProgress"); Print;
     Describe Autopilot.describe_auto_ml_job (Ok "Completed"); Print; Sleep 30].
Proof. reflexivity. Qed.

(** ** The place of the sleeps *)

Lemma schedule_app l1 l2 : schedule (l1 ++ l2) = schedule l1 ++ schedule l2.
Proof. apply omap_app. Qed.

Lemma actions_app l1 l2 : actions (l1 ++ l2) = actions l1 ++ actions l2.
Proof. apply omap_app. Qed.

Section Placement.

Variable api : string.
Variable cond : option string -> bool.
Variable before after : option string -> list event.
Hypothesis before_quiet : forall st, quiet (before st).
Hypothesis after_quiet : forall st, quiet (after st).

Local Abbreviation loop := (polling api cond before after).

(** What [f] keeps of a run that is left: of the first iteration, and of
    one more for every status that keeps the loop going. *)
Lemma polling_omap {B} (f : event -> option B) (each : list B)
    st first pre s rest :
  (forall p s', omap f (before (Some p) ++ Describe api (Ok s') :: after (Some p))
                = each) ->
  (forall s', omap f (before st ++ Describe api (Ok s') :: after st) = first) ->
  cond st = true ->
  Forall (fun s' => cond (Some s') = true) pre ->
  cond (Some s) = false ->
  omap f (trace (loop st ((Ok <$> pre ++ [s]) ++ rest)))
  = first ++ concat (replicate (length pre) each).
Proof.
  intros Heach Hfirst Hst Hpre Hs. revert st first Hfirst Hst.
  induction Hpre as [|p pre Hp _ IH]; intros st first Hfirst Hst.
  - change ((Ok <$> [] ++ [s]) ++ rest) with (Ok s :: rest).
    rewrite polling_next, polling_stop by done. unfold emit; cbn [trace].
    rewrite app_nil_r, Hfirst. simpl. by rewrite app_nil_r.
  - change ((Ok <$> (p :: pre) ++ [s]) ++ rest)
      with (Ok p :: ((Ok <$> pre ++ [s]) ++ rest)).
    rewrite polling_next by done. unfold emit; cbn [trace].
    rewrite omap_app, Hfirst, (IH (Some p) each) by done. done.
Qed.

(** Between two consecutive queries of the loop there are the actions
    [after] of one iteration and the actions [before] of the next: of the
    first iteration of the run when no query comes before the two, and of an
    iteration on a status when one does. *)
Lemma polling_gap_place st svc l1 a1 r1 mid a2 r2 l2 :
  trace (loop st svc) = l1 ++ Describe a1 r1 :: mid ++ Describe a2 r2 :: l2 ->
  quiet mid ->
  exists s1 st1, r1 = Ok s1 /\ mid = after st1 ++ before (Some s1)
                 /\ ((st1 = st /\ queries l1 = [])
                     \/ (is_Some st1 /\ queries l1 <> [])).
Proof.
  intros Htr Hmid. revert st l1 Htr.
  induction svc as [|r svc IH]; intros st l1; simpl;
    destruct (cond st) eqn:Hc; simpl; intros Htr;
    try (by destruct l1).
  - by apply quiet_no_query in Htr.
  - destruct r as [s|e]; simpl in Htr.
    + rewrite <-app_assoc in Htr.
      apply strip_quiet in Htr as (l' & -> & Htr); [|done..].
      destruct l' as [|x l']; simpl in Htr.
      * injection Htr as <- <- Htr. exists s, st. split; [done|].
        split; [|left; split; [done|]; rewrite app_nil_r; by apply queries_quiet].
        destruct (polling_head api cond before after before_quiet (Some s) svc)
          as [Hq|(r' & rest & Hr)].
        -- by apply quiet_no_query in Htr; [| apply Forall_app |].
        -- rewrite Hr, app_assoc in Htr.
           apply first_query in Htr as (? & _); [done|..|done|done]; [|done].
           by apply Forall_app.
      * injection Htr as <- Htr.
        apply strip_quiet in Htr as (l'' & -> & Htr); [|done..].
        destruct (IH _ _ Htr) as (s1 & st1 & ? & ? & Hplace).
        exists s1, st1. split; [done|]. split; [done|]. right.
        split; [by destruct Hplace as [[-> _]|[? _]]|].
        rewrite !queries_app. unfold queries at 2.
        rewrite filter_cons_True by done. by destruct (queries (before st)).
    + apply strip_quiet in Htr as (l' & -> & Htr); [|done..].
      destruct l' as [|x l']; simpl in Htr.
      * injection Htr as _ _ Htr. by destruct mid.
      * injection Htr as _ Htr. by destruct l'.
Qed.

End Placement.

Lemma textract_schedule pre s rest :
  Forall (fun s' => s' = "IN_PROGRESS") pre -> s <> "IN_PROGRESS" ->
  schedule (trace (Textract.poll ((Ok <$> pre ++ [s]) ++ rest)))
  = concat (replicate (S (length pre)) [Wait 5; Query]).
Proof.
  intros Hpre Hs. rewrite <-trace_as_variable, textract_shape.
  unfold textract_polling, schedule.
  rewrite (polling_omap _ _ _ _ _ [Wait 5; Query] None [Wait 5; Query]);
    [done|done|done|done| |].
  - eapply Forall_impl; [done|]. intros ? ->. done.
  - simpl. by apply String.eqb_neq.
Qed.

Lemma autopilot_schedule pre s rest :
  Forall (fun s' => s' ∉ Autopilot.finished) pre ->
  ~ (s ∉ Autopilot.finished) ->
  schedule (trace (Autopilot.poll ((Ok <$> pre ++ [s]) ++ rest)))
  = Query :: concat (replicate (length pre) [Query; Wait 30]).
Proof.
  intros Hpre Hs. rewrite <-trace_as_variable, autopilot_shape.
  unfold autopilot_polling, schedule.
  rewrite (polling_omap _ _ _ _ _ [Query; Wait 30] None [Query]);
    [done|done|done|done| |].
  - eapply Forall_impl; [done|]. intros p Hp. simpl.
    by rewrite negb_true_iff, py_in_false.
  - simpl. rewrite negb_false_iff, py_in_spec.
    by destruct (decide (s ∈ Autopilot.finished)).
Qed.

Lemma hpo_schedule pre s rest :
  Forall (fun s' => s' = "InProgress") pre -> s <> "InProgress" ->
  schedule (trace (Hpo.poll ((Ok <$> pre ++ [s]) ++ rest)))
  = Query :: concat (replicate (length pre) [Wait 60; Query]).
Proof.
  intros Hpre Hs. unfold Hpo.poll.
  rewrite trace_and_then, schedule_app, hpo_while_shape.
  unfold hpo_polling, schedule at 1.
  rewrite (polling_omap _ _ _ _ _ [Wait 60; Query] None [Query]);
    [|done|done|done| |].
  - destruct (result _); simpl; by rewrite app_nil_r.
  - eapply Forall_impl; [done|]. intros ? ->. done.
  - simpl. by apply String.eqb_neq.
Qed.

Lemma textract_actions pre s rest :
  Forall (fun s' => s' = "IN_PROGRESS") pre -> s <> "IN_PROGRESS" ->
  actions (trace (Textract.poll ((Ok <$> pre ++ [s]) ++ rest)))
  = concat (replicate (S (length pre)) [Pause; Poll]).
Proof.
  intros Hpre Hs. rewrite <-trace_as_variable, textract_shape.
  unfold textract_polling, actions.
  rewrite (polling_omap _ _ _ _ _ [Pause; Poll] None [Pause; Poll]);
    [done|done|done|done| |].
  - eapply Forall_impl; [done|]. intros ? ->. done.
  - simpl. by apply String.eqb_neq.
Qed.

Lemma autopilot_actions pre s rest :
  Forall (fun s' => s' ∉ Autopilot.finished) pre ->
  ~ (s ∉ Autopilot.finished) ->
  actions (trace (Autopilot.poll ((Ok <$> pre ++ [s]) ++ rest)))
  = Poll :: concat (replicate (length pre) [Poll; Pause]).
Proof.
  intros Hpre Hs. rewrite <-trace_as_variable, autopilot_shape.
  unfold autopilot_polling, actions.
  rewrite (polling_omap _ _ _ _ _ [Poll; Pause] None [Poll]);
    [done|done|done|done| |].
  - eapply Forall_impl; [done|]. intros p Hp. simpl.
    by rewrite negb_true_iff, py_in_false.
  - simpl. rewrite negb_false_iff, py_in_spec.
    by destruct (decide (s ∈ Autopilot.finished)).
Qed.

Lemma hpo_actions pre s rest :
  Forall (fun s' => s' = "InProgress") pre -> s <> "InProgress" ->
  actions (trace (Hpo.poll ((Ok <$> pre ++ [s]) ++ rest)))
  = Poll :: concat (replicate (length pre) [Pause; Poll]).
Proof.
  intros Hpre Hs. unfold Hpo.poll.
  rewrite trace_and_then, actions_app, hpo_while_shape.
  unfold hpo_polling, actions at 1.
  rewrite (polling_omap _ _ _ _ _ [Pause; Poll] None [Poll]);
    [|done|done|done| |].
  - destruct (result _); simpl; by rewrite app_nil_r.
  - eapply Forall_impl; [done|]. intros ? ->. done.
  - simpl. by apply String.eqb_neq.
Qed.

(** The Autopilot cell has the interval of its loop but between the query
    ahead of the loop and the first query of the loop. *)
Lemma autopilot_after_first : fixed_interval_after_first Autopilot.poll 30.
Proof.
  intros svc. pose proof (autopilot_stepless svc) as Hsteps.
  rewrite <-trace_as_variable, autopilot_shape in Hsteps |- *.
  unfold autopilot_polling in *. split; [|split; [|done]].
  - intros n Hn. apply elem_of_sleeps in Hn.
    pose proof (polling_Forall Autopilot.describe_auto_ml_job autopilot_cond
                  autopilot_before autopilot_after
                  (fun ev => forall m, ev = Sleep m -> m = 30) None svc) as HF.
    rewrite Forall_forall in HF. eapply HF; [| | |done|done].
    + intros [?|]; repeat constructor; by intros m [=].
    + intros [?|]; repeat constructor; by intros m [=].
    + done.
  - intros l1 a1 r1 mid a2 r2 l2 Htr Hmid.
    destruct (polling_gap_place _ _ _ _ autopilot_before_quiet
                autopilot_after_quiet _ _ _ _ _ _ _ _ _ Htr Hmid)
      as (s1 & st1 & _ & -> & [[-> ->]|[[p ->] Hl1]]); [done|].
    by destruct (queries l1).
Qed.

(** C6, as the code has it. Every poll cell blocks in sleeps of one length,
    5 seconds in the Textract cell, 30 in the Autopilot cell and 60 in the
    tuning cell, whatever the statuses and however many the iterations, and
    calls the service for nothing but the status, so that it never stops the
    job. In each of the three loops, and in the whole Textract and tuning
    cells, there is exactly one sleep between two consecutive status
    queries. In the Autopilot cell there is one between two consecutive
    queries that follow another query, and none between the first two: the
    query ahead of the loop is followed at once by the first query of the
    loop. When the service reports [k] times that the job is in progress
    and then a terminal status, the Textract cell sleeps and queries [k + 1]
    times; the Autopilot cell queries once, and then [k] times queries and
    sleeps; the tuning cell queries once, and then [k] times sleeps and
    queries. *)
Theorem loops_have_fixed_intervals :
  ((forall status, fixed_interval (Textract.poll_while status) 5)
   /\ (forall status, fixed_interval (Autopilot.poll_while status) 30)
   /\ (forall hpo_state, fixed_interval (Hpo.poll_while hpo_state) 60)
   /\ fixed_interval Textract.poll 5
   /\ fixed_interval Hpo.poll 60)
  /\ fixed_interval_after_first Autopilot.poll 30
  /\ schedule_of Textract.poll (fun s => s = "IN_PROGRESS")
       (fun k => concat (replicate (S k) [Wait 5; Query]))
  /\ schedule_of Autopilot.poll (fun s => s ∉ Autopilot.finished)
       (fun k => Query :: concat (replicate k [Query; Wait 30]))
  /\ schedule_of Hpo.poll (fun s => s = "InProgress")
       (fun k => Query :: concat (replicate k [Wait 60; Query])).
Proof.
  split; [apply loops_fixed_interval|].
  split; [apply autopilot_after_first|].
  split; [|split].
  - intros pre s rest. apply textract_schedule.
  - intros pre s rest. apply autopilot_schedule.
  - intros pre s rest. apply hpo_schedule.
Qed.

Lemma loops_have_fixed_intervals_witness :
  schedule (trace (Autopilot.poll
                     ((Ok <$> ["InProgress"; "InProgress"] ++ ["Completed"])
                      ++ [])))
  = [Query; Query; Wait 30; Query; Wait 30]
  /\ sleeps [Print; Sleep 5] = [5].
Proof.
  destruct loops_have_fixed_intervals as ((Hloop & _) & _ & _ & Hcell & _).
  split.
  - apply (Hcell ["InProgress"; "InProgress"] "Completed" []).
    + repeat constructor; by intros ?%py_in_spec.
    + intros H'. apply H'. by apply py_in_spec.
  - destruct (Hloop "IN_PROGRESS" [Ok "IN_PROGRESS"; Ok "SUCCEEDED"])
      as (_ & Hgap & _).
    apply (Hgap [Sleep 5] Textract.get_document_analysis (Ok "IN_PROGRESS")
                [Print; Sleep 5]
                Textract.get_document_analysis (Ok "SUCCEEDED") [Print]);
      [reflexivity | by repeat constructor].
Defined.

(** C6, as it is stated, does not hold of the Autopilot cell: its first two
    status queries, the one ahead of the loop and the first of the loop,
    have no sleep between them. *)
Lemma autopilot_queries_at_once : ~ fixed_intervals.
Proof.
  intros (_ & H & _).
  destruct (H [Ok "InProgress"; Ok "Completed"]) as (_ & Hgap & _).
  specialize (Hgap [Print; Print] Autopilot.describe_auto_ml_job
                   (Ok "InProgress") [Print]
                   Autopilot.describe_auto_ml_job (Ok "Completed")
                   [Print; Sleep 30] eq_refl).
  discriminate Hgap. by repeat constructor.
Qed.

(** ** One client, three orders of actions *)

Lemma summary_as_variable (r : run string) : summary (as_variable r) = summary r.
Proof. by destruct r as [tr [?| |]]. Qed.

Lemma summary_and_then {A} (r : run A) next :
  quiet next -> summary (and_then r next) = summary r.
Proof.
  intros Hq. unfold summary. rewrite result_and_then, trace_and_then.
  rewrite queries_app. f_equal.
  destruct (result r); simpl; rewrite ?(queries_quiet next) by done;
    by rewrite app_nil_r.
Qed.

(** On reported statuses that are in progress or not at the same places,
    the three poll cells make the same number of status queries and are left
    at the same point, after the first status that is not in progress, as
    the spec has the polling step. *)
Lemma same_summary (in_progress : list bool)
    (svcT svcA svcH : list string) :
  (fun s => String.eqb s "IN_PROGRESS") <$> svcT = in_progress ->
  (fun s => negb (py_in s Autopilot.finished)) <$> svcA = in_progress ->
  (fun s => String.eqb s "InProgress") <$> svcH = in_progress ->
  summary (Textract.poll (Ok <$> svcT)) = poll_until_terminal in_progress
  /\ summary (Autopilot.poll (Ok <$> svcA)) = poll_until_terminal in_progress
  /\ summary (Hpo.poll (Ok <$> svcH)) = poll_until_terminal in_progress.
Proof.
  intros HT HA HH. split; [|split].
  - rewrite <-summary_as_variable, textract_shape, <-HT.
    apply (polling_summary _ textract_cond); [by repeat constructor| |done].
    apply textract_after_quiet.
  - rewrite <-summary_as_variable, autopilot_shape, <-HA.
    apply (polling_summary _ autopilot_cond); [| |done].
    + apply autopilot_before_quiet.
    + apply autopilot_after_quiet.
  - unfold Hpo.poll. rewrite summary_and_then by repeat constructor.
    rewrite hpo_while_shape, <-HH.
    apply (polling_summary _ Hpo.unfinished); [|done|done].
    apply hpo_before_quiet.
Qed.

(** Statuses that are in progress [k] times and then not. *)
Lemma fmap_in_progress {A} (f : A -> bool) (l : list A) k more :
  f <$> l = replicate k true ++ false :: more ->
  exists pre s rest,
    l = (pre ++ [s]) ++ rest /\ length pre = k
    /\ Forall (fun x => f x = true) pre /\ f s = false.
Proof.
  revert l. induction k as [|k IH]; intros l H.
  - destruct l as [|s rest]; [done|]. injection H as Hs _.
    by exists [], s, rest.
  - destruct l as [|x l]; [done|]. injection H as Hx H.
    destruct (IH _ H) as (pre & s & rest & -> & <- & Hpre & Hs).
    exists (x :: pre), s, rest. repeat split; try done. by constructor.
Qed.

(** C7, as the code has it. On reported statuses that are in progress or
    not at the same places, the three poll cells make the same number of
    status queries and are left at the same point, after the first status
    that is not in progress, as the spec has the polling step. The sleeps
    are not at the same places: when the statuses are in progress [k] times
    and then not, the Textract cell sleeps before every query, the first
    included; the Autopilot cell after every query of its loop, the last
    included, and not after the query ahead of the loop; the tuning cell
    before every query but the first. *)
Theorem same_queries_and_exit (in_progress : list bool)
    (svcT svcA svcH : list string) :
  (fun s => String.eqb s "IN_PROGRESS") <$> svcT = in_progress ->
  (fun s => negb (py_in s Autopilot.finished)) <$> svcA = in_progress ->
  (fun s => String.eqb s "InProgress") <$> svcH = in_progress ->
  (summary (Textract.poll (Ok <$> svcT)) = poll_until_terminal in_progress
   /\ summary (Autopilot.poll (Ok <$> svcA)) = poll_until_terminal in_progress
   /\ summary (Hpo.poll (Ok <$> svcH)) = poll_until_terminal in_progress)
  /\ forall k more,
       in_progress = replicate k true ++ false :: more ->
       actions (trace (Textract.poll (Ok <$> svcT)))
       = concat (replicate (S k) [Pause; Poll])
       /\ actions (trace (Autopilot.poll (Ok <$> svcA)))
          = Poll :: concat (replicate k [Poll; Pause])
       /\ actions (trace (Hpo.poll (Ok <$> svcH)))
          = Poll :: concat (replicate k [Pause; Poll]).
Proof.
  intros HT HA HH. split; [by apply same_summary|].
  intros k more Hk. rewrite Hk in HT, HA, HH.
  apply fmap_in_progress in HT as (preT & sT & restT & -> & <- & HpT & HsT).
  apply fmap_in_progress in HA as (preA & sA & restA & -> & HkA & HpA & HsA).
  apply fmap_in_progress in HH as (preH & sH & restH & -> & HkH & HpH & HsH).
  rewrite !(fmap_app Ok (_ ++ _)). split; [|split].
  - apply textract_actions.
    + eapply Forall_impl; [done|]. by intros ? ?%String.eqb_eq.
    + by apply String.eqb_neq.
  - rewrite <-HkA. apply autopilot_actions.
    + eapply Forall_impl; [done|]. intros p Hp. simpl in Hp.
      by rewrite negb_true_iff, py_in_false in Hp.
    + rewrite negb_false_iff, py_in_spec in HsA. by intros H.
  - rewrite <-HkH. apply hpo_actions.
    + eapply Forall_impl; [done|]. by intros ? ?%String.eqb_eq.
    + by apply String.eqb_neq.
Qed.

Lemma same_queries_and_exit_witness :
  (summary (Textract.poll (Ok <$> ["IN_PROGRESS"; "SUCCEEDED"])) = (2, true)
   /\ summary (Autopilot.poll (Ok <$> ["InProgress"; "Completed"])) = (2, true)
   /\ summary (Hpo.poll (Ok <$> ["InProgress"; "Completed"])) = (2, true))
  /\ actions (trace (Textract.poll (Ok <$> ["IN_PROGRESS"; "SUCCEEDED"])))
     = [Pause; Poll; Pause; Poll]
  /\ actions (trace (Autopilot.poll (Ok <$> ["InProgress"; "Completed"])))
     = [Poll; Poll; Pause]
  /\ actions (trace (Hpo.poll (Ok <$> ["InProgress"; "Completed"])))
     = [Poll; Pause; Poll].
Proof.
  destruct (same_queries_and_exit [true; false]
              ["IN_PROGRESS"; "SUCCEEDED"] ["InProgress"; "Completed"]
              ["InProgress"; "Completed"] eq_refl eq_refl eq_refl)
    as [Hsum Hacts].
  split; [exact Hsum|]. exact (Hacts 1 [] eq_refl).
Defined.

(** C7, as it is stated, does not hold: on one terminal status, the Textract
    cell sleeps before its query and the two others do not. *)
Lemma clients_differ : ~ same_actions.
Proof.
  intros H.
  destruct (H [false] ["SUCCEEDED"] ["Completed"] ["Completed"]
              eq_refl eq_refl eq_refl) as [H1 _].
  vm_compute in H1. discriminate H1.
Qed.

(** The Autopilot cell and the tuning cell differ as well: one sleeps after
    its query, the other before. *)
Example autopilot_and_hpo_differ :
  actions (trace (Autopilot.poll (Ok <$> ["InProgress"; "Completed"])))
  = [Poll; Poll; Pause]
  /\ actions (trace (Hpo.poll (Ok <$> ["InProgress"; "Completed"])))
     = [Poll; Pause; Poll]
  /\ actions (trace (Textract.poll (Ok <$> ["IN_PROGRESS"; "SUCCEEDED"])))
     = [Pause; Poll; Pause; Poll].
Proof. repeat split. Qed.

(** ** Exceptions *)

Lemma propagates_of_shape (poll : list (reply string) -> run string)
    gen (repeats repeats' : string -> Prop) :
  (forall svc, as_variable (poll svc) = gen svc) ->
  (forall s, repeats s <-> repeats' s) ->
  propagates gen repeats' -> propagates poll repeats.
Proof.
  intros Hshape Hrep [H1 H2]. split.
  - intros pre e rest Hpre.
    destruct (H1 pre e rest) as (Hres & Hlast & Hq).
    { eapply Forall_impl; [done|]. intros ?. apply Hrep. }
    rewrite <-Hshape in Hres, Hlast, Hq. simpl in *.
    split; [|done]. destruct (result (poll _)); by simplify_eq.
  - intros svc e He. apply H2. rewrite <-Hshape. simpl. by rewrite He.
Qed.

Lemma textract_propagates :
  propagates Textract.poll (fun s => s = "IN_PROGRESS").
Proof.
  eapply propagates_of_shape; [apply textract_shape| |].
  2: { apply polling_propagates; [by repeat constructor
                                 |apply textract_after_quiet|done]. }
  intros s. simpl. by rewrite String.eqb_eq.
Qed.

Lemma autopilot_propagates :
  propagates Autopilot.poll (fun s => s ∉ Autopilot.finished).
Proof.
  eapply propagates_of_shape; [apply autopilot_shape| |].
  2: { apply polling_propagates; [apply autopilot_before_quiet
                                 |apply autopilot_after_quiet|done]. }
  intros s. simpl. rewrite negb_true_iff. by rewrite py_in_false.
Qed.

Lemma hpo_propagates : propagates Hpo.poll (fun s => s = "InProgress").
Proof.
  destruct (polling_propagates Hpo.describe_hyper_parameter_tuning_job
              Hpo.unfinished hpo_before (fun _ => []) hpo_before_quiet
              (fun _ => Forall_nil_2 _) None eq_refl) as [H1 H2].
  unfold Hpo.poll. split.
  - intros pre e rest Hpre.
    rewrite result_and_then, trace_and_then, hpo_while_shape.
    destruct (H1 pre e rest) as (Hres & Hlast & Hq).
    { eapply Forall_impl; [done|]. intros ? ->. done. }
    unfold hpo_polling. rewrite Hres, app_nil_r. done.
  - intros svc e. rewrite result_and_then, hpo_while_shape. apply H2.
Qed.

Lemma fetch_while_raises tok st pre e rest :
  Textract.truthy tok = true ->
  Forall (fun r => has_token r) pre ->
  Textract.fetch_while tok st ((Ok <$> pre) ++ Raise e :: rest)
  = (Textract.Fetched
       (Textract.pages st ++ pre)
       (Textract.requests st ++ tok :: (Textract.NextToken <$> pre)),
     Raised e).
Proof.
  intros Htok Hpre. revert tok st Htok.
  induction Hpre as [|p pre Hp _ IH]; intros tok st Htok; simpl; rewrite Htok.
  - by rewrite app_nil_r.
  - rewrite IH by done. simpl. by rewrite <-!app_assoc.
Qed.

Lemma fetch_while_raised tok st svc e :
  (Textract.fetch_while tok st svc).2 = Raised e -> Raise e ∈ svc.
Proof.
  revert tok st. induction svc as [|r svc IH]; intros tok st; simpl;
    destruct (Textract.truthy tok); simpl; try done.
  destruct r as [r|e']; simpl.
  - intros H. right. by eapply IH.
  - intros [= ->]. left.
Qed.

Lemma fetch_while_run tok st pre last rest :
  Textract.truthy tok = true ->
  Forall (fun r => has_token r) pre ->
  Textract.truthy (Textract.NextToken last) = false ->
  Textract.fetch_while tok st ((Ok <$> pre ++ [last]) ++ rest)
  = (Textract.Fetched
       (Textract.pages st ++ pre ++ [last])
       (Textract.requests st ++ tok :: (Textract.NextToken <$> pre)),
     Exited tt).
Proof.
  intros Htok Hpre Hlast. revert tok st Htok.
  induction Hpre as [|p pre Hp _ IH]; intros tok st Htok; simpl; rewrite Htok.
  - destruct rest; simpl; by rewrite Hlast.
  - rewrite IH by done. simpl. by rewrite <-!app_assoc.
Qed.

(** C8. No cell handles an error. An exception that a status query or a
    request for a page raises leaves the cell as it was raised, after the
    replies that kept the cell going: nothing is caught, the call is not
    made again, and the exception is not replaced. Every exception that
    leaves a cell is one that a call to the SDK raised. *)
Theorem sdk_errors_propagate :
  propagates Textract.poll (fun s => s = "IN_PROGRESS")
  /\ propagates Autopilot.poll (fun s => s ∉ Autopilot.finished)
  /\ propagates Hpo.poll (fun s => s = "InProgress")
  /\ (forall pre e rest,
        Forall (fun r => has_token r) pre ->
        Textract.fetch ((Ok <$> pre) ++ Raise e :: rest)
        = (Textract.Fetched pre (None :: (Textract.NextToken <$> pre)),
           Raised e))
  /\ (forall svc e, (Textract.fetch svc).2 = Raised e -> Raise e ∈ svc).
Proof.
  split; [apply textract_propagates|].
  split; [apply autopilot_propagates|].
  split; [apply hpo_propagates|].
  split.
  - intros pre e rest Hpre. destruct Hpre as [|p pre Hp Hpre]; [done|].
    simpl. by rewrite fetch_while_raises.
  - intros [|[r|e'] svc] e; simpl; try done.
    + intros H. right. by eapply fetch_while_raised.
    + intros [= ->]. left.
Qed.

Lemma sdk_errors_propagate_witness :
  result (Autopilot.poll ((Ok <$> ["InProgress"])
                          ++ Raise "ThrottlingException" :: [Ok "Completed"]))
  = Raised "ThrottlingException".
Proof.
  destruct sdk_errors_propagate as (_ & [H _] & _).
  apply H. repeat constructor. by intros ?%py_in_spec.
Defined.

(** ** Pages of results *)

(** The fetch cell follows the tokens that are true for Python: on
    responses with such a token, followed by one whose token is not, [pages]
    is this whole sequence, whatever the service would answer next, the
    first request has no token and every other request passes the
    ['NextToken'] of the response before it. *)
Lemma fetch_follows_tokens pre last rest :
  Forall (fun r => has_token r) pre ->
  Textract.truthy (Textract.NextToken last) = false ->
  Textract.fetch ((Ok <$> pre ++ [last]) ++ rest)
  = (Textract.Fetched (pre ++ [last])
                      (None :: (Textract.NextToken <$> pre)),
     Exited tt).
Proof.
  intros Hpre Hlast. destruct Hpre as [|p pre Hp Hpre].
  - simpl. destruct rest; simpl; by rewrite Hlast.
  - simpl. by rewrite fetch_while_run.
Qed.

(** On a response as the service sends it, the loop goes on exactly when the
    response has the key. *)
Lemma has_token_key r :
  Textract.sent_by_service r ->
  is_Some (Textract.NextToken r) -> has_token r.
Proof.
  unfold Textract.sent_by_service. destruct r as [[t|] body]; simpl.
  - intros Ht _. apply negb_true_iff, String.eqb_neq. congruence.
  - by intros _ [? ?].
Qed.

(** C5. The fetch cell appends one entry to [pages] for every response, in
    the order of the responses; the first request has no token and every
    other request passes the ['NextToken'] of the response before it; and
    the cell stops after the first response that has no ['NextToken'] key.
    So on responses of the service that have the key, followed by one that
    has not, [pages] is this whole sequence, and what the service would
    answer next is not asked for. The cell tests the token for truth and not
    the key for presence; on responses of the service, whose tokens have at
    least one character, this is the same. *)
Theorem fetch_stops_without_key pre last rest :
  Forall Textract.sent_by_service pre ->
  Forall (fun r => is_Some (Textract.NextToken r)) pre ->
  Textract.NextToken last = None ->
  Textract.fetch ((Ok <$> pre ++ [last]) ++ rest)
  = (Textract.Fetched (pre ++ [last])
                      (None :: (Textract.NextToken <$> pre)),
     Exited tt).
Proof.
  intros Hsent Hkey Hlast. apply fetch_follows_tokens.
  - rewrite Forall_forall in Hsent, Hkey. apply Forall_forall.
    intros r Hr. apply has_token_key; auto.
  - by rewrite Hlast.
Qed.

Lemma fetch_stops_without_key_witness :
  Textract.fetch
    ((Ok <$> [Textract.Response (Some "t1") "blocks 1";
              Textract.Response (Some "t2") "blocks 2"]
             ++ [Textract.Response None "blocks 3"])
     ++ [Ok (Textract.Response (Some "t4") "blocks 4")])
  = (Textract.Fetched
       ([Textract.Response (Some "t1") "blocks 1";
         Textract.Response (Some "t2") "blocks 2"]
        ++ [Textract.Response None "blocks 3"])
       (None :: (Textract.NextToken <$>
                   [Textract.Response (Some "t1") "blocks 1";
                    Textract.Response (Some "t2") "blocks 2"])),
     Exited tt).
Proof.
  apply fetch_stops_without_key;
    [by repeat constructor|repeat constructor; by eexists|reflexivity].
Defined.

(** ** The statuses that the loops compare with *)

(** C4, as the code has it. Each loop decides between two things only, to go
    on or to be left, by comparing the status with the values written in its
    condition: the Textract loop goes on on ["IN_PROGRESS"] alone, the
    tuning loop on ["InProgress"] alone (or when no status was fetched), and
    the Autopilot loop is left on ['Failed'], ['Completed'] and ['Stopped']
    alone. Each of these values names a job in progress, succeeded or failed,
    or is ['Stopped']. *)
Theorem statuses_compared_with :
  (forall s svc,
     Textract.poll_while s svc = Run [] (Exited s) <-> s ∉ textract_literals)
  /\ (forall s svc,
        Autopilot.poll_while s svc = Run [] (Exited s)
        <-> s ∈ autopilot_literals)
  /\ (forall st svc,
        Hpo.poll_while st svc = Run [] (Exited st)
        <-> exists s, st = Some s /\ s ∉ hpo_literals)
  /\ (forall s, s ∈ textract_literals ++ autopilot_literals ++ hpo_literals ->
                is_Some (state_of s) \/ s = "Stopped").
Proof.
  split; [|split; [|split]].
  - intros s svc. unfold textract_literals. rewrite list_elem_of_singleton.
    destruct svc as [|[s'|e] svc]; simpl;
      destruct (String.eqb_spec s "IN_PROGRESS"); split; try done;
      by intros [].
  - intros s svc. unfold autopilot_literals. rewrite <-py_in_spec.
    destruct svc as [|[s'|e] svc]; simpl;
      destruct (py_in s Autopilot.finished); simpl; split; done.
  - intros st svc. unfold hpo_literals. split.
    + destruct st as [s|]; [exists s|];
        destruct svc as [|[s'|e] svc]; simpl in *; try done;
        rewrite list_elem_of_singleton;
        destruct (String.eqb_spec s "InProgress"); done.
    + intros (s & -> & Hs). rewrite list_elem_of_singleton in Hs.
      destruct svc as [|[s'|e] svc]; simpl;
        destruct (String.eqb_spec s "InProgress"); done.
  - intros s Hs. unfold textract_literals, autopilot_literals, hpo_literals,
      Autopilot.finished in Hs. simpl in Hs.
    repeat (apply elem_of_cons in Hs as [->|Hs];
            [first [by left; eexists | by right]|]).
    by apply not_elem_of_nil in Hs.
Qed.

Lemma statuses_compared_with_witness :
  is_Some (state_of "Completed") \/ "Completed" = "Stopped".
Proof.
  destruct statuses_compared_with as (_ & _ & _ & H).
  apply H. unfold textract_literals, autopilot_literals, Autopilot.finished.
  apply elem_of_cons. right. apply elem_of_cons. right. apply elem_of_cons.
  by left.
Defined.

(** C4, as it is stated, does not hold: the Autopilot loop is left on
    ['Stopped'], which is none of in progress, succeeded and failed. *)
Lemma stopped_is_a_fourth_status : ~ three_states_only.
Proof.
  intros H. destruct (H "Stopped") as [st Hst]; [|discriminate Hst].
  unfold textract_literals, autopilot_literals, Autopilot.finished.
  apply elem_of_cons. right. apply elem_of_cons. right. apply elem_of_cons.
  right. apply elem_of_cons. by left.
Qed.

(** The Autopilot loop is left on ['Stopped'] and goes on on the status
    ['Stopping'], which the condition does not name. *)
Example stopped_leaves_the_loop :
  Autopilot.poll_while "Stopped" [Ok "Completed"] = Run [] (Exited "Stopped")
  /\ result (Autopilot.poll_while "Stopping" [Ok "Stopped"; Ok "Completed"])
     = Exited "Stopped"
  /\ state_of "Stopped" = None.
Proof. repeat split. Qed.

(** ** Batches of text *)

Section Batches.

Variable A : Type.
Variable m : nat.
Hypothesis m_pos : 0 < m.

Lemma range_aux_lookup fuel i stop k j :
  range_aux fuel i stop m !! k = Some j -> j = i + k * m /\ j < stop.
Proof.
  revert i k. induction fuel as [|fuel IH]; intros i k; simpl; [done|].
  destruct (Nat.ltb_spec i stop) as [Hlt|Hge]; [|done].
  destruct k as [|k]; simpl.
  - intros [= <-]. lia.
  - intros Hk. apply IH in Hk. lia.
Qed.

Lemma slice_window (s : list A) i : slice s i (i + m) = take m (drop i s).
Proof. unfold slice. f_equal. lia. Qed.

Lemma batches_from_concat (s : list A) fuel i :
  length s - i <= fuel ->
  concat ((fun i => slice s i (i + m)) <$> range_aux fuel i (length s) m)
  = drop i s.
Proof.
  revert i. induction fuel as [|fuel IH]; intros i Hfuel; simpl.
  - rewrite drop_ge; [done|lia].
  - destruct (Nat.ltb_spec i (length s)); simpl.
    + rewrite IH by lia. rewrite slice_window.
      by rewrite <-(drop_drop s m i), take_drop.
    + rewrite drop_ge; [done|lia].
Qed.

Lemma batches_concat (s : list A) : concat (batches m s) = s.
Proof. unfold batches, range. rewrite batches_from_concat; [done|lia]. Qed.

Lemma batches_lookup (s : list A) k c :
  batches m s !! k = Some c ->
  c = slice s (k * m) (k * m + m) /\ k * m < length s.
Proof.
  unfold batches. rewrite list_lookup_fmap.
  destruct (range _ _ _ !! k) as [j|] eqn:Hj; [|done].
  apply range_aux_lookup in Hj as [-> Hlt]. simpl. intros [= <-]. done.
Qed.

Lemma batches_length (s : list A) k c :
  batches m s !! k = Some c -> 0 < length c <= m.
Proof.
  intros [-> Hlt]%batches_lookup.
  rewrite slice_window, length_take, length_drop. lia.
Qed.

Lemma batches_apart (s : list A) j k cj :
  j < k -> batches m s !! j = Some cj -> j * m + length cj <= k * m.
Proof.
  intros Hjk Hj%batches_length.
  pose proof (Nat.mul_le_mono_r (S j) k m Hjk) as Hle.
  rewrite Nat.mul_succ_l in Hle. lia.
Qed.

(** A text of one batch size is one batch. *)
Lemma batches_one (s : list A) : length s = m -> batches m s = [s].
Proof.
  intros Hlen. unfold batches, range. rewrite Hlen, Nat.sub_0_r.
  destruct m as [|f] eqn:Hm; [lia|]. simpl.
  assert (Hnil : range_aux f (S f) (S f) (S f) = []).
  { destruct f; simpl; [done|]. by rewrite Nat.ltb_irrefl. }
  rewrite Hnil. simpl. unfold slice. rewrite Nat.sub_0_r. simpl.
  f_equal. destruct s as [|x s]; [done|]. simpl in *. f_equal.
  apply take_ge. lia.
Qed.

End Batches.

Lemma maxLength_pos : 0 < Textract.maxLength.
Proof. apply Nat.ltb_lt. by vm_compute. Qed.

Lemma submitted_batches pageText :
  Textract.submitted pageText = batches Textract.maxLength pageText.
Proof. done. Qed.

(** The texts of all pages make up the pages. *)
Lemma submitted_all_concat (doc_pages : list str) :
  concat (Textract.submitted_all doc_pages) = concat doc_pages.
Proof.
  unfold Textract.submitted_all.
  induction doc_pages as [|pageText doc_pages IH]; [done|].
  change (concat ((pageText :: doc_pages) ≫= Textract.submitted))
    with (concat (Textract.submitted pageText
                  ++ (doc_pages ≫= Textract.submitted))).
  rewrite concat_app, IH, submitted_batches.
  by rewrite (batches_concat _ _ maxLength_pos).
Qed.

Lemma utf8_width_bounds c : 1 <= utf8_width c <= 4.
Proof. unfold utf8_width. repeat case_match; lia. Qed.

Lemma utf8_len_cons c (s : str) : utf8_len (c :: s) = utf8_width c + utf8_len s.
Proof. done. Qed.

Lemma utf8_len_bound (s : str) : utf8_len s <= 4 * length s.
Proof.
  induction s as [|c s IH]; [done|]. rewrite utf8_len_cons, length_cons.
  pose proof (utf8_width_bounds c). lia.
Qed.

Lemma utf8_len_ascii (s : str) :
  Forall (fun c => (c < 128)%N) s -> utf8_len s = length s.
Proof.
  induction 1 as [|c s Hc _ IH]; [done|].
  rewrite utf8_len_cons, length_cons, IH.
  unfold utf8_width. apply N.ltb_lt in Hc. by rewrite Hc.
Qed.

Lemma utf8_len_replicate n (c : codepoint) :
  utf8_len (replicate n c) = n * utf8_width c.
Proof.
  unfold utf8_len. rewrite fmap_replicate, sum_list_replicate. done.
Qed.

Lemma elem_of_take_drop {B} (x : B) n i (s : list B) :
  x ∈ take n (drop i s) -> x ∈ s.
Proof.
  intros H. rewrite <-(take_drop i s). apply elem_of_app. right.
  rewrite <-(take_drop n (drop i s)). apply elem_of_app. by left.
Qed.

(** C1, as the code has it. For every page text, the texts submitted to
    [detect_entities_v2] are the consecutive slices
    [pageText[i : i+20000]] for [i = 0, 20000, 40000, ...]: the texts in
    order make up the whole page text, the text number [k] is the slice that
    starts at [20000 * k], so that no text overlaps another, and every text
    is at most 20,000 characters long, hence at most 80,000 bytes in UTF-8,
    and at most 20,000 bytes when the page text is ASCII. *)
Theorem batches_cover_page (pageText : str) :
  concat (Textract.submitted pageText) = pageText
  /\ (forall k c, Textract.submitted pageText !! k = Some c ->
        c = slice pageText (k * Textract.maxLength)
                  (k * Textract.maxLength + Textract.maxLength)
        /\ 0 < length c <= Textract.maxLength
        /\ utf8_len c <= 4 * Textract.maxLength)
  /\ (forall j k cj, j < k -> Textract.submitted pageText !! j = Some cj ->
        j * Textract.maxLength + length cj <= k * Textract.maxLength)
  /\ (Forall (fun c => (c < 128)%N) pageText ->
      Forall (fun c => utf8_len c <= Textract.maxLength)
             (Textract.submitted pageText)).
Proof.
  pose proof maxLength_pos as Hpos. rewrite submitted_batches.
  split; [by apply batches_concat|]. split; [|split].
  - intros k c Hc. split; [by apply batches_lookup in Hc as [? _]|].
    pose proof (batches_length _ _ Hpos _ _ _ Hc) as Hlen. split; [done|].
    pose proof (utf8_len_bound c). lia.
  - intros j k cj. by apply batches_apart.
  - intros Hascii. apply Forall_lookup. intros k c Hc.
    pose proof (batches_length _ _ Hpos _ _ _ Hc) as Hlen.
    rewrite utf8_len_ascii; [lia|].
    apply batches_lookup in Hc as [-> _]; [|done].
    apply Forall_forall. intros x Hx. rewrite Forall_forall in Hascii.
    apply Hascii. by eapply elem_of_take_drop.
Qed.

Lemma batches_cover_page_witness :
  Forall (fun c => utf8_len c <= Textract.maxLength)
         (Textract.submitted [72; 98; 49; 65; 99]%N).
Proof.
  apply (batches_cover_page [72; 98; 49; 65; 99]%N).
  repeat constructor.
Defined.

(** C1, as it is stated, does not hold: a page of 20,000 times the letter
    e with an acute accent is submitted as one text of 40,000 bytes. *)
Lemma batch_of_two_byte_letters : ~ batches_within_bytes.
Proof.
  intros H. specialize (H (replicate Textract.maxLength 233%N)).
  pose proof maxLength_pos as Hpos.
  rewrite submitted_batches, batches_one in H
    by (done || apply length_replicate).
  apply Forall_cons in H as [H _].
  rewrite utf8_len_replicate in H.
  change (utf8_width 233%N) with 2 in H. lia.
Qed.

(** Each text of a batch of the accented letter, for the size of the batch. *)
Example two_byte_letters (n : nat) :
  utf8_len (replicate n 233%N) = n * 2.
Proof. apply utf8_len_replicate. Qed.

(** ** Splits of the data *)

Lemma elem_of_concat {A} (x : A) (ls : list (list A)) :
  x ∈ concat ls <-> exists l, l ∈ ls /\ x ∈ l.
Proof.
  induction ls as [|l ls IH]; simpl.
  - split; [by intros ?%not_elem_of_nil|by intros (? & ?%not_elem_of_nil & _)].
  - rewrite elem_of_app, IH. split.
    + intros [Hx|(l' & Hl' & Hx)]; [exists l|exists l'];
        (split; [|done]); [by left|by right].
    + intros (l' & Hl' & Hx). apply elem_of_cons in Hl' as [->|Hl'];
        [by left|right; by exists l'].
Qed.

(** Every row of a partitioned frame is in one of the splits, and the
    splits have only rows of the frame. *)
Lemma partition_of_covers splits df r :
  partition_of splits df -> r ∈ df <-> exists s, s ∈ splits /\ r ∈ s.
Proof. intros [Hperm _]. by rewrite <-Hperm, elem_of_concat. Qed.

Lemma submseteq_NoDup {A} (l k : list A) : l ⊆+ k -> NoDup k -> NoDup l.
Proof.
  intros [k' Hk]%submseteq_Permutation Hnd. rewrite Hk in Hnd.
  by apply NoDup_app in Hnd as [? _].
Qed.

Lemma np_split_two {A} (ary : list A) cut1 cut2 :
  Hpo.np_split ary [cut1; cut2]
  = [take cut1 ary; take (cut2 - cut1) (drop cut1 ary); drop cut2 ary].
Proof.
  unfold Hpo.np_split. simpl. unfold slice. by rewrite Nat.sub_0_r.
Qed.

Lemma np_split_concat {A} (ary : list A) cut1 cut2 :
  cut1 <= cut2 -> concat (Hpo.np_split ary [cut1; cut2]) = ary.
Proof.
  intros Hle. rewrite np_split_two. simpl. rewrite app_nil_r.
  replace (drop cut2 ary) with (drop (cut2 - cut1) (drop cut1 ary)).
  - by rewrite take_drop, take_drop.
  - rewrite drop_drop. f_equal. lia.
Qed.

Lemma NoDup_rows (df : frame) : NoDup (index df) -> NoDup df.
Proof. apply NoDup_fmap_1. Qed.

(** A row of the frame is dropped exactly when its label is dropped. *)
Lemma drop_rows_complement (churn train_data : frame) :
  NoDup (index churn) -> train_data ⊆+ churn ->
  forall r, r ∈ churn ->
            (r ∈ train_data <-> r ∉ Autopilot.test_data churn train_data).
Proof.
  intros Hnd Hsub r Hr.
  unfold Autopilot.test_data, Autopilot.drop_rows.
  rewrite list_elem_of_filter. split.
  - intros Htrain [Hlab _]. apply Hlab. unfold index.
    by apply list_elem_of_fmap_2.
  - intros Hnot. destruct (decide (label r ∈ index train_data)) as [Hin|Hout].
    + unfold index in Hin. apply list_elem_of_fmap in Hin as (r' & Hlab & Hr').
      assert (Hr'c : r' ∈ churn) by (by eapply elem_of_submseteq).
      assert (r = r') as ->; [|done].
      apply list_elem_of_lookup in Hr as [i Hi].
      apply list_elem_of_lookup in Hr'c as [i' Hi'].
      assert (i = i') as ->.
      { eapply NoDup_lookup; [exact Hnd| |]; unfold index;
          rewrite list_lookup_fmap; [by rewrite Hi|by rewrite Hi', Hlab]. }
      congruence.
    + exfalso. by apply Hnot.
Qed.

(** *** The two cut points *)

Section Double.

Open Scope Z_scope.

(** A rounded number has as many bits as the number, or is the next power
    of two. *)
Lemma round_double_bounds p :
  0 < p -> 2 ^ Z.log2 p <= round_double p <= 2 ^ (Z.log2 p + 1).
Proof.
  intros Hp. pose proof (Z.log2_spec p Hp) as [Hlo Hhi].
  unfold round_double. destruct (Z.leb_spec (Z.log2 p + 1 - 53) 0) as [Hk|Hk].
  { cbv zeta. lia. }
  cbv zeta. set (k := Z.log2 p + 1 - 53) in *.
  assert (Hd : 0 < 2 ^ k) by (apply Z.pow_pos_nonneg; lia).
  assert (HL : 2 ^ Z.log2 p = 2 ^ 52 * 2 ^ k).
  { rewrite <-Z.pow_add_r by lia. f_equal. lia. }
  assert (HL1 : 2 ^ (Z.log2 p + 1) = 2 ^ 53 * 2 ^ k).
  { rewrite <-Z.pow_add_r by lia. f_equal. lia. }
  assert (Hq1 : 2 ^ 52 <= p / 2 ^ k).
  { apply Z.div_le_lower_bound; lia. }
  assert (Hq2 : p / 2 ^ k < 2 ^ 53).
  { apply Z.div_lt_upper_bound; lia. }
  rewrite HL, HL1. destruct (_ || _); nia.
Qed.

Lemma round_double_0 : round_double 0 = 0.
Proof. reflexivity. Qed.

(** Rounding keeps the order. *)
Lemma round_double_mono p1 p2 :
  0 <= p1 <= p2 -> round_double p1 <= round_double p2.
Proof.
  intros [H1 H12]. destruct (Z.eq_dec p1 0) as [->|Hne].
  { rewrite round_double_0. destruct (Z.eq_dec p2 0) as [->|?]; [done|].
    pose proof (round_double_bounds p2 ltac:(lia)).
    pose proof (Z.pow_pos_nonneg 2 (Z.log2 p2) ltac:(lia) (Z.log2_nonneg _)).
    lia. }
  assert (Hp1 : 0 < p1) by lia. assert (Hp2 : 0 < p2) by lia.
  pose proof (Z.log2_le_mono p1 p2 H12) as HL.
  destruct (Z.eq_dec (Z.log2 p1) (Z.log2 p2)) as [Heq|Hlt].
  - unfold round_double. rewrite Heq.
    destruct (Z.leb_spec (Z.log2 p2 + 1 - 53) 0) as [Hk|Hk]; [done|].
    cbv zeta. set (k := Z.log2 p2 + 1 - 53) in *.
    assert (Hd : 0 < 2 ^ k) by (apply Z.pow_pos_nonneg; lia).
    pose proof (Z.div_mod p1 (2 ^ k) ltac:(lia)) as E1.
    pose proof (Z.div_mod p2 (2 ^ k) ltac:(lia)) as E2.
    pose proof (Z.mod_pos_bound p1 (2 ^ k) Hd) as B1.
    pose proof (Z.mod_pos_bound p2 (2 ^ k) Hd) as B2.
    pose proof (Z.div_le_mono p1 p2 (2 ^ k) Hd H12) as Hq.
    set (q1 := p1 / 2 ^ k) in *. set (q2 := p2 / 2 ^ k) in *.
    set (r1 := p1 mod 2 ^ k) in *. set (r2 := p2 mod 2 ^ k) in *.
    set (d := 2 ^ k) in *. set (half := 2 ^ (k - 1)) in *.
    destruct (Z.eq_dec q1 q2) as [Hqq|Hqq].
    + rewrite Hqq. assert (Hr : r1 <= r2) by nia.
      destruct (Z.ltb_spec half r1), (Z.ltb_spec half r2),
        (Z.eqb_spec r1 half), (Z.eqb_spec r2 half), (Z.odd q2);
        simpl; nia.
    + assert (q1 + 1 <= q2) by lia.
      destruct (_ || _), (_ || _); nia.
  - pose proof (round_double_bounds p1 Hp1) as [_ Hu].
    pose proof (round_double_bounds p2 Hp2) as [Hl _].
    assert (2 ^ (Z.log2 p1 + 1) <= 2 ^ Z.log2 p2)
      by (apply Z.pow_le_mono_r; lia).
    lia.
Qed.

(** An integer below [2^53] is a double. *)
Lemma round_double_exact n :
  0 <= n < 2 ^ 53 -> round_double (2 ^ 53 * n) = 2 ^ 53 * n.
Proof.
  intros [Hn0 Hn]. destruct (Z.eq_dec n 0) as [->|Hne]; [done|].
  assert (Hpos : 0 < n) by lia.
  unfold round_double.
  assert (HL : Z.log2 (2 ^ 53 * n) = Z.log2 n + 53).
  { rewrite Z.mul_comm, Z.log2_mul_pow2 by lia. lia. }
  rewrite HL. pose proof (Z.log2_nonneg n) as Hlog.
  assert (Hlog53 : Z.log2 n < 53) by (apply Z.log2_lt_pow2; lia).
  destruct (Z.leb_spec (Z.log2 n + 53 + 1 - 53) 0) as [Hk|Hk]; [done|].
  cbv zeta. set (k := Z.log2 n + 53 + 1 - 53) in *.
  assert (Hd : 0 < 2 ^ k) by (apply Z.pow_pos_nonneg; lia).
  assert (H53 : 2 ^ 53 = 2 ^ (53 - k) * 2 ^ k).
  { rewrite <-Z.pow_add_r by lia. f_equal. lia. }
  assert (Hmod : (2 ^ 53 * n) mod 2 ^ k = 0).
  { rewrite H53. rewrite <-Z.mul_assoc, (Z.mul_comm (2 ^ k)), Z.mul_assoc.
    apply Z.mod_mul. lia. }
  rewrite Hmod.
  assert (Hhalf : 0 < 2 ^ (k - 1)) by (apply Z.pow_pos_nonneg; lia).
  destruct (Z.ltb_spec (2 ^ (k - 1)) 0); [lia|].
  destruct (Z.eqb_spec 0 (2 ^ (k - 1))); [lia|]. simpl.
  pose proof (Z.div_mod (2 ^ 53 * n) (2 ^ k) ltac:(lia)) as E.
  rewrite Hmod in E. lia.
Qed.

End Double.

(** The cut points are in order and within the frame. *)
Lemma int_times_le n :
  (Z.of_nat n < 2 ^ 53)%Z ->
  int_times double_0_7 n <= int_times double_0_9 n <= n.
Proof.
  intros Hn. unfold int_times.
  assert (Hpos : forall mant, (0 <= mant)%Z ->
            (0 <= round_double (mant * Z.of_nat n) / 2 ^ 53)%Z).
  { intros mant Hm. apply Z.div_pos; [|done].
    etrans; [|apply (round_double_mono 0)]; [by rewrite round_double_0|].
    lia. }
  split.
  - apply Z2Nat.inj_le; [by apply Hpos..|].
    apply Z.div_le_mono; [done|]. apply round_double_mono.
    unfold double_0_7, double_0_9. lia.
  - rewrite <-(Nat2Z.id n) at 2. apply Z2Nat.inj_le; [by apply Hpos|lia|].
    apply Z.div_le_upper_bound; [done|].
    rewrite <-round_double_exact by lia. apply round_double_mono.
    unfold double_0_9. lia.
Qed.

(** The products are not the whole parts of the exact products: 70 % of 90
    rows are 62 rows. *)
Example int_times_90 :
  int_times double_0_7 90 = 62 /\ int_times double_0_9 90 = 81.
Proof. split; reflexivity. Qed.

(** C10. In both notebooks the splits partition the input frame. Cutting the
    shuffled frame of [n] rows at [int(0.7*n)] and [int(0.9*n)] gives three
    splits of [int(0.7*n)], [int(0.9*n) - int(0.7*n)] and [n - int(0.9*n)]
    rows, which together have every row of the frame exactly once. In the
    Autopilot notebook the test rows are the rows of [churn] that are not in
    the training sample, so that the sample and the test rows together have
    every row exactly once. The index labels of a frame are unique, as
    [read_csv] makes them, and a frame has fewer than [2^53] rows. *)
Theorem splits_partition (df shuffled churn train_data : frame) :
  NoDup (index df) -> shuffled ≡ₚ df -> (Z.of_nat (length df) < 2 ^ 53)%Z ->
  NoDup (index churn) -> train_data ⊆+ churn ->
  (length <$> train_validation_test df shuffled
   = [int_times double_0_7 (length df);
      int_times double_0_9 (length df) - int_times double_0_7 (length df);
      length df - int_times double_0_9 (length df)]
   /\ partition_of (train_validation_test df shuffled) df)
  /\ partition_of [train_data; Autopilot.test_data churn train_data] churn
  /\ (forall r, r ∈ churn ->
        (r ∈ train_data <-> r ∉ Autopilot.test_data churn train_data)).
Proof.
  intros Hdf Hperm Hsize Hchurn Hsub.
  pose proof (int_times_le _ Hsize) as Hcut. split; [split|split].
  - unfold train_validation_test. rewrite np_split_two. simpl.
    rewrite !length_take, !length_drop, (Permutation_length Hperm).
    repeat f_equal; lia.
  - unfold partition_of, train_validation_test.
    rewrite np_split_concat by lia. split; [done|].
    rewrite Hperm. by apply NoDup_rows.
  - pose proof (drop_rows_complement _ _ Hchurn Hsub) as Hcompl.
    assert (Hnd : NoDup (concat [train_data;
                                 Autopilot.test_data churn train_data])).
    { simpl. rewrite app_nil_r. apply NoDup_app. split; [|split].
      - eapply submseteq_NoDup; [done|]. by apply NoDup_rows.
      - intros r Hr. apply Hcompl; [|done]. by eapply elem_of_submseteq.
      - apply NoDup_filter. by apply NoDup_rows. }
    split; [|done]. apply NoDup_Permutation; [done|by apply NoDup_rows|].
    intros r. simpl. rewrite app_nil_r, elem_of_app. split.
    + intros [Hr|Hr]; [by eapply elem_of_submseteq|].
      by apply list_elem_of_filter in Hr as [_ ?].
    + intros Hr. destruct (decide (r ∈ train_data)) as [|Hout]; [by left|].
      right. destruct (decide (r ∈ Autopilot.test_data churn train_data));
        [done|]. exfalso. apply Hout. by apply Hcompl.
  - by apply drop_rows_complement.
Qed.

Lemma splits_partition_witness :
  let r0 := Row 0 ["no"] in
  let r1 := Row 1 ["yes"] in
  let r2 := Row 2 ["no"] in
  (length <$> train_validation_test [r0; r1; r2] [r2; r0; r1]
   = [int_times double_0_7 3;
      int_times double_0_9 3 - int_times double_0_7 3;
      3 - int_times double_0_9 3]
   /\ partition_of (train_validation_test [r0; r1; r2] [r2; r0; r1])
                   [r0; r1; r2])
  /\ partition_of [[r2; r0]; Autopilot.test_data [r0; r1; r2] [r2; r0]]
                  [r0; r1; r2]
  /\ (forall r, r ∈ [r0; r1; r2] ->
        (r ∈ [r2; r0] <-> r ∉ Autopilot.test_data [r0; r1; r2] [r2; r0])).
Proof.
  intros r0 r1 r2.
  apply (splits_partition [r0; r1; r2] [r2; r0; r1] [r0; r1; r2] [r2; r0]).
  - simpl. repeat (apply NoDup_cons; split; [intros H; in_list H|]).
    apply NoDup_nil_2.
  - apply (Permutation_cons_append [r0; r1] r2).
  - simpl. lia.
  - simpl. repeat (apply NoDup_cons; split; [intros H; in_list H|]).
    apply NoDup_nil_2.
  - apply NoDup_submseteq.
    + repeat (apply NoDup_cons; split; [intros H; in_list H|]).
      apply NoDup_nil_2.
    + intros r Hr.
      repeat (apply elem_of_cons in Hr as [->|Hr];
              [by repeat first [apply list_elem_of_here
                               |apply list_elem_of_further]|]).
      by apply not_elem_of_nil in Hr.
Defined.

(** ** Teardown *)

Lemma lookup_assign_all bs (e : env) x :
  assign_all bs e !! x
  = match binding x bs with Some v => Some v | None => e !! x end.
Proof.
  revert e. induction bs as [|[y v] bs IH]; intros e; [done|].
  change (assign_all ((y, v) :: bs) e) with (assign_all bs (<[y:=v]> e)).
  rewrite IH. simpl. destruct (binding x bs); [done|].
  destruct (String.eqb_spec x y) as [->|Hne].
  - by rewrite lookup_insert_eq.
  - by rewrite lookup_insert_ne.
Qed.

Lemma binding_app x b1 b2 :
  binding x (b1 ++ b2)
  = match binding x b2 with Some v => Some v | None => binding x b1 end.
Proof.
  induction b1 as [|[y v] b1 IH]; simpl; [by destruct (binding x b2)|].
  rewrite IH. by destruct (binding x b2).
Qed.

Lemma binding_notin x bs : x ∉ bs.*1 -> binding x bs = None.
Proof.
  induction bs as [|[y v] bs IH]; [done|]. simpl.
  rewrite not_elem_of_cons. intros [Hne Hnotin]. rewrite IH by done.
  by destruct (String.eqb_spec x y).
Qed.

Lemma read_assign_all bs (e : env) x :
  read (assign_all bs e) x
  = match binding x bs with
    | Some (VStr s) => Ok s
    | Some VOpaque => Raise ("TypeError: " +:+ x)
    | None => read e x
    end.
Proof. unfold read. rewrite lookup_assign_all. by destruct (binding x bs). Qed.

Lemma read_insert (e : env) x y v :
  read (<[y:=v]> e) x = read (assign_all [(y, v)] e) x.
Proof. done. Qed.

(** The three first cells of the Textract notebook, from a fresh kernel:
    the report is uploaded under the key that [S3_path] holds. *)
Lemma upload_ran preprocess default_bucket objects :
  Textract.cell_upload
    (Textract.after
       (Textract.cell_setup preprocess default_bucket
                            (Textract.Kernel ∅ objects)))
  = Textract.Ran
      (Textract.Kernel
         (assign_all
            (Textract.setup_assignments preprocess default_bucket
             ++ [("fileName", VStr "sample_report.pdf");
                 ("fileUploadPath", VStr "sample_report.pdf");
                 ("S3_path", VStr report_key)])
            ∅)
         ({[ (default_bucket, report_key) ]} ∪ objects))
      None.
Proof.
  unfold Textract.cell_setup, Textract.cell_upload.
  cbn [Textract.after Textract.vars Textract.s3].
  rewrite read_assign_all. cbn [binding String.eqb Ascii.eqb Bool.eqb].
  unfold Textract.setup_assignments at 1.
  rewrite read_assign_all, !binding_app.
  cbn [binding String.eqb Ascii.eqb Bool.eqb].
  rewrite read_insert, !read_assign_all.
  cbn [binding String.eqb Ascii.eqb Bool.eqb].
  unfold Textract.setup_assignments at 1. rewrite !binding_app.
  cbn [binding String.eqb Ascii.eqb Bool.eqb].
  unfold assign_all. by rewrite foldl_app.
Qed.

(** The last cell, after all the assignments of the notebook. *)
Lemma cleanup_ran preprocess default_bucket objects :
  "textractObjectName" ∉ preprocess.*1 ->
  Textract.cell_cleanup
    (Textract.after
       (Textract.cell_analysis
          (Textract.after
             (Textract.cell_upload
                (Textract.after
                   (Textract.cell_setup preprocess default_bucket
                                        (Textract.Kernel ∅ objects)))))))
  = Textract.Ran
      (Textract.after
         (Textract.cell_analysis
            (Textract.after
               (Textract.cell_upload
                  (Textract.after
                     (Textract.cell_setup preprocess default_bucket
                                          (Textract.Kernel ∅ objects)))))))
      (Some "NameError: name 'textractObjectName' is not defined").
Proof.
  intros Hpre. apply binding_notin in Hpre. rewrite upload_ran.
  unfold Textract.cell_analysis, Textract.cell_cleanup.
  cbn [Textract.after Textract.vars Textract.s3].
  rewrite !read_assign_all.
  unfold Textract.setup_assignments. rewrite !binding_app, Hpre.
  by vm_compute.
Qed.

(** C9 fails on the Textract notebook. Run from a fresh kernel, the notebook
    uploads the report under the key [S3_path] and its last cell deletes
    the object of the key [textractObjectName], a name that no cell
    assigns: unless [preprocess] exports the name, the cell raises a
    [NameError], and the uploaded object is still in the bucket. *)
Theorem cleanup_names_unbound_key (preprocess : list (string * pyval))
    (default_bucket : string) (objects : gset (string * string)) :
  "textractObjectName" ∉ preprocess.*1 ->
  Textract.raised
    (Textract.notebook preprocess default_bucket (Textract.Kernel ∅ objects))
  = Some "NameError: name 'textractObjectName' is not defined"
  /\ Textract.s3
       (Textract.after
          (Textract.notebook preprocess default_bucket
                             (Textract.Kernel ∅ objects)))
     = {[ (default_bucket, report_key) ]} ∪ objects.
Proof.
  intros Hpre. unfold Textract.notebook, Textract.run_cells.
  change (Textract.raised (Textract.cell_setup _ _ _)) with (@None string).
  cbv iota. rewrite upload_ran. cbn [Textract.raised Textract.after].
  change (Textract.raised (Textract.cell_analysis _)) with (@None string).
  cbv iota.
  pose proof (cleanup_ran _ default_bucket objects Hpre) as Hclean.
  rewrite upload_ran in Hclean. cbn [Textract.after] in Hclean.
  rewrite Hclean. done.
Qed.

Lemma cleanup_names_unbound_key_witness :
  Textract.raised
    (Textract.notebook [("color", VOpaque); ("extractMC_v2", VOpaque)]
                       "sagemaker-ap-southeast-1" (Textract.Kernel ∅ ∅))
  = Some "NameError: name 'textractObjectName' is not defined"
  /\ Textract.s3
       (Textract.after
          (Textract.notebook [("color", VOpaque); ("extractMC_v2", VOpaque)]
                             "sagemaker-ap-southeast-1" (Textract.Kernel ∅ ∅)))
     = {[ ("sagemaker-ap-southeast-1", report_key) ]} ∪ ∅.
Proof.
  apply cleanup_names_unbound_key. simpl. intros H. in_list H.
Defined.

(** Had the last cell named [S3_path], it would have deleted the object
    that was uploaded, and nothing else. *)
Lemma delete_of_uploaded_key (b key : string) (objects : gset (string * string)) :
  (b, key) ∉ objects -> ({[ (b, key) ]} ∪ objects) ∖ {[ (b, key) ]} = objects.
Proof.
  intros H. apply set_eq. intros x.
  rewrite elem_of_difference, elem_of_union, elem_of_singleton.
  split; [tauto|]. intros Hx. split; [tauto|]. by intros ->.
Qed.

(** The Autopilot part of C9. The clean-up cell deletes the endpoint, the
    endpoint configuration and the model of the three names that the hosting
    cell built, and nothing else: every other resource is as it was, and
    when the three names were new, the resources are again those from before
    the hosting cell. *)
Lemma autopilot_cleanup_exact (best_candidate_name timestamp_suffix : string)
    (sm : Autopilot.sagemaker) :
  let h := (Autopilot.host best_candidate_name timestamp_suffix sm).1 in
  let sm' := (Autopilot.host best_candidate_name timestamp_suffix sm).2 in
  Autopilot.models (Autopilot.cleanup h sm')
  = Autopilot.models sm ∖ {[ Autopilot.model_name h ]}
  /\ Autopilot.endpoint_configs (Autopilot.cleanup h sm')
     = Autopilot.endpoint_configs sm ∖ {[ Autopilot.epc_name h ]}
  /\ Autopilot.endpoints (Autopilot.cleanup h sm')
     = Autopilot.endpoints sm ∖ {[ Autopilot.ep_name h ]}
  /\ (Autopilot.model_name h ∉ Autopilot.models sm ->
      Autopilot.epc_name h ∉ Autopilot.endpoint_configs sm ->
      Autopilot.ep_name h ∉ Autopilot.endpoints sm ->
      Autopilot.cleanup h sm' = sm).
Proof.
  intros h sm'. subst sm'. unfold Autopilot.host, Autopilot.cleanup.
  cbn [fst snd Autopilot.models Autopilot.endpoint_configs Autopilot.endpoints].
  assert (Hset : forall (x : string) (X : gset string),
            ({[x]} ∪ X) ∖ {[x]} = X ∖ {[x]}).
  { intros x X. apply set_eq. intros y.
    rewrite !elem_of_difference, elem_of_union, elem_of_singleton. tauto. }
  assert (Hnew : forall (x : string) (X : gset string),
            x ∉ X -> X ∖ {[x]} = X).
  { intros x X Hx. apply set_eq. intros y.
    rewrite elem_of_difference, elem_of_singleton.
    split; [tauto|]. intros Hy. split; [done|]. by intros ->. }
  rewrite !Hset. repeat split.
  intros H1 H2 H3. destruct sm as [ms cs es]. cbn in *.
  f_equal; by apply Hnew.
Qed.

(** * More of the notebooks *)

(** ** The Comprehend Medical cell *)

Lemma range_aux_nil fuel i stop m : stop <= i -> range_aux fuel i stop m = [].
Proof.
  intros Hle. destruct fuel as [|fuel]; [done|]. simpl.
  destruct (Nat.ltb_spec i stop); [lia|done].
Qed.

(** [range(0, n, m)] has as many values as batches of [m] are needed for
    [n]. *)
Lemma range_aux_length m fuel i stop :
  0 < m -> stop - i <= fuel ->
  stop - i <= length (range_aux fuel i stop m) * m < stop - i + m.
Proof.
  intros Hm. revert i. induction fuel as [|fuel IH]; intros i Hfuel; simpl.
  - lia.
  - destruct (Nat.ltb_spec i stop) as [Hlt|Hge]; [|simpl; lia].
    rewrite length_cons, Nat.mul_succ_l.
    destruct (le_lt_dec stop (i + m)) as [Hend|Hmore].
    + rewrite range_aux_nil by done. simpl. lia.
    + specialize (IH (i + m) ltac:(lia)). lia.
Qed.

Lemma ceil_div_unique m n k :
  0 < m -> n <= k * m < n + m -> (n + m - 1) / m = k.
Proof.
  intros Hm [Hlo Hhi]. symmetry.
  apply (Nat.div_unique _ _ _ (n + m - 1 - m * k)); lia.
Qed.

Lemma range_length n : length (range 0 n Textract.maxLength) = Textract.calls_for n.
Proof.
  pose proof maxLength_pos as Hm. unfold range, Textract.calls_for.
  symmetry. apply ceil_div_unique; [done|].
  pose proof (range_aux_length Textract.maxLength (n - 0) 0 n Hm ltac:(lia)).
  lia.
Qed.

Section ComprehendFacts.

Variable entities : Type.
Variable text_arg : str -> nat -> str.

Local Abbreviation serve := (Textract.serve entities).
Local Abbreviation state := (Textract.comprehended entities).

Lemma detect_each_serve pageText starts (st : state) svc :
  Textract.detect_each entities text_arg pageText starts st svc
  = serve (text_arg pageText <$> starts) st svc.
Proof.
  revert st svc. induction starts as [|i starts IH]; intros st svc; [done|].
  simpl. destruct svc as [|[r|e] svc]; first [done|apply IH].
Qed.

Lemma serve_app texts1 texts2 (st : state) svc :
  serve (texts1 ++ texts2) st svc
  = match serve texts1 st svc with
    | (st', Exited svc') => serve texts2 st' svc'
    | (st', Raised e) => (st', Raised e)
    | (st', Waiting) => (st', Waiting)
    end.
Proof.
  revert st svc. induction texts1 as [|t texts1 IH]; intros st svc; [done|].
  simpl. destruct svc as [|[r|e] svc]; first [done|apply IH].
Qed.

(** The two loops make the calls for the texts of all pages, in order. *)
Lemma detect_pages_serve doc_pages (st : state) svc :
  Textract.detect_pages entities text_arg doc_pages st svc
  = match serve (Textract.texts_of text_arg doc_pages) st svc with
    | (st', Exited _) => (st', Exited tt)
    | (st', Raised e) => (st', Raised e)
    | (st', Waiting) => (st', Waiting)
    end.
Proof.
  revert st svc.
  induction doc_pages as [|pageText doc_pages IH]; intros st svc; [done|].
  change (Textract.texts_of text_arg (pageText :: doc_pages))
    with ((text_arg pageText
             <$> range 0 (length pageText) Textract.maxLength)
          ++ Textract.texts_of text_arg doc_pages).
  rewrite serve_app. cbn [Textract.detect_pages].
  rewrite detect_each_serve.
  destruct (serve _ st svc) as [st' [svc'| |]]; [apply IH|done|done].
Qed.

Lemma serve_all texts (st : state) rs rest :
  length rs = length texts ->
  serve texts st ((Ok <$> rs) ++ rest)
  = (Textract.Comprehended entities
       (Textract.comprehendResponse entities st ++ rs)
       (Textract.texts_sent entities st ++ texts),
     Exited rest).
Proof.
  revert st rs. induction texts as [|t texts IH]; intros st rs Hlen.
  - destruct rs; [|done]. destruct st. simpl. by rewrite !app_nil_r.
  - destruct rs as [|r rs]; [done|]. simpl. rewrite IH by (simpl in Hlen; lia).
    simpl. by rewrite <-!app_assoc.
Qed.

Lemma serve_raise texts (st : state) rs e rest :
  length rs < length texts ->
  serve texts st ((Ok <$> rs) ++ Raise e :: rest)
  = (Textract.Comprehended entities
       (Textract.comprehendResponse entities st ++ rs)
       (Textract.texts_sent entities st ++ take (S (length rs)) texts),
     Raised e).
Proof.
  revert st rs. induction texts as [|t texts IH]; intros st rs Hlen.
  - simpl in Hlen. lia.
  - destruct rs as [|r rs]; simpl.
    + by rewrite app_nil_r, take_0.
    + rewrite IH by (simpl in Hlen; lia). simpl. by rewrite <-!app_assoc.
Qed.

(** When all the calls have returned, there is a response for every text. *)
Lemma serve_exited texts (st st' : state) svc svc' :
  serve texts st svc = (st', Exited svc') ->
  length (Textract.comprehendResponse entities st')
  = length (Textract.comprehendResponse entities st) + length texts.
Proof.
  revert st svc. induction texts as [|t texts IH]; intros st svc; simpl.
  - intros [= <- _]. lia.
  - destruct svc as [|[r|e] svc]; try done.
    intros H. apply IH in H. simpl in H. rewrite length_app in H. simpl in *.
    lia.
Qed.

Lemma texts_of_length doc_pages :
  length (Textract.texts_of text_arg doc_pages)
  = sum_list ((fun pageText => Textract.calls_for (length pageText))
                <$> doc_pages).
Proof.
  induction doc_pages as [|pageText doc_pages IH]; [done|].
  change (Textract.texts_of text_arg (pageText :: doc_pages))
    with ((text_arg pageText
             <$> range 0 (length pageText) Textract.maxLength)
          ++ Textract.texts_of text_arg doc_pages).
  rewrite length_app, length_fmap, range_length, IH. done.
Qed.

Lemma texts_of_nil doc_pages :
  Textract.texts_of text_arg doc_pages = [] <-> Forall (fun p => p = []) doc_pages.
Proof.
  induction doc_pages as [|pageText doc_pages IH].
  - split; [by constructor|done].
  - change (Textract.texts_of text_arg (pageText :: doc_pages))
      with ((text_arg pageText
               <$> range 0 (length pageText) Textract.maxLength)
            ++ Textract.texts_of text_arg doc_pages).
    rewrite Forall_cons, <-IH. split.
    + intros [H1 H2]%app_eq_nil. split; [|done].
      apply fmap_nil_inv in H1. destruct pageText as [|c pageText]; [done|].
      exfalso. pose proof (range_length (length (c :: pageText))) as Hlen.
      rewrite H1 in Hlen. simpl in Hlen. pose proof maxLength_pos as Hm.
      symmetry in Hlen. unfold Textract.calls_for in Hlen.
      apply Nat.div_small_iff in Hlen; lia.
    + intros [-> ->]. done.
Qed.

End ComprehendFacts.

(** The number of calls for a page. The Comprehend Medical cell calls
    [detect_entities_v2] as many times for a page as batches of 20,000
    characters are needed for its text, not at all for an empty text,
    whatever the [Text] argument is made of. When every call returns,
    [comprehendResponse] is the responses, in the order of the calls, and
    the replies that the service would give next are not asked for. *)
Theorem comprehend_all_return (entities : Type) (text_arg : str -> nat -> str)
    (doc_pages : list str) (responses : list entities)
    (rest : list (reply entities)) :
  length responses
  = sum_list ((fun pageText => Textract.calls_for (length pageText))
                <$> doc_pages) ->
  Textract.comprehend entities text_arg doc_pages ((Ok <$> responses) ++ rest)
  = (Textract.Comprehended entities responses
                           (Textract.texts_of text_arg doc_pages),
     Exited tt)
  /\ length (Textract.texts_of text_arg doc_pages) = length responses
  /\ Textract.calls_for 0 = 0.
Proof.
  intros Hlen. rewrite <-(texts_of_length text_arg) in Hlen.
  split; [|split; [done|]].
  - unfold Textract.comprehend. rewrite detect_pages_serve.
    by rewrite serve_all.
  - by rewrite <-range_length.
Qed.

Lemma comprehend_all_return_witness :
  Textract.comprehend string Textract.text_range [[72; 105]; []; [79; 75]]%N
                      ((Ok <$> ["entities 1"; "entities 2"]) ++ [])
  = (Textract.Comprehended string ["entities 1"; "entities 2"]
       (Textract.texts_of Textract.text_range [[72; 105]; []; [79; 75]]%N),
     Exited tt)
  /\ length (Textract.texts_of Textract.text_range [[72; 105]; []; [79; 75]]%N)
     = length ["entities 1"; "entities 2"]
  /\ Textract.calls_for 0 = 0.
Proof.
  apply comprehend_all_return. by vm_compute.
Defined.

(** An exception in the Comprehend Medical cell. When a call raises, the
    exception leaves the cell; the responses of the calls before it are in
    [comprehendResponse], which is appended to in place, and no text after
    the one that failed is sent. *)
Theorem comprehend_raise (entities : Type) (text_arg : str -> nat -> str)
    (doc_pages : list str) (responses : list entities) (e : string)
    (rest : list (reply entities)) :
  length responses
  < sum_list ((fun pageText => Textract.calls_for (length pageText))
                <$> doc_pages) ->
  Textract.comprehend entities text_arg doc_pages
                      ((Ok <$> responses) ++ Raise e :: rest)
  = (Textract.Comprehended entities responses
       (take (S (length responses)) (Textract.texts_of text_arg doc_pages)),
     Raised e).
Proof.
  intros Hlen. rewrite <-(texts_of_length text_arg) in Hlen.
  unfold Textract.comprehend. rewrite detect_pages_serve.
  by rewrite serve_raise.
Qed.

Lemma comprehend_raise_witness :
  Textract.comprehend string Textract.text_range [[72; 105]; []; [79; 75]]%N
                      ((Ok <$> ["entities 1"])
                       ++ Raise "ThrottlingException" :: [])
  = (Textract.Comprehended string ["entities 1"]
       (take (S (length ["entities 1"]))
             (Textract.texts_of Textract.text_range
                                [[72; 105]; []; [79; 75]]%N)),
     Raised "ThrottlingException").
Proof.
  apply comprehend_raise. apply Nat.ltb_lt. by vm_compute.
Defined.

Section ReviewFacts.

Variable entities : Type.
Variable text_arg : str -> nat -> str.

(** When all the calls have returned, the replies that were used are
    responses, one for every text, and they are what was appended to
    [comprehendResponse], in their order. *)
Lemma serve_exited_all texts (st st' : Textract.comprehended entities) svc svc' :
  Textract.serve entities texts st svc = (st', Exited svc') ->
  exists rs,
    svc = (Ok <$> rs) ++ svc' /\ length rs = length texts
    /\ Textract.comprehendResponse entities st'
       = Textract.comprehendResponse entities st ++ rs
    /\ Textract.texts_sent entities st'
       = Textract.texts_sent entities st ++ texts.
Proof.
  revert st svc. induction texts as [|t texts IH]; intros st svc; simpl.
  - intros [= <- <-]. exists []. by rewrite !app_nil_r.
  - destruct svc as [|[r|e] svc]; try done.
    intros H. apply IH in H as (rs & -> & Hlen & Hresp & Hsent).
    exists (r :: rs). simpl in *. rewrite <-!app_assoc in *.
    split_and!; [done|by rewrite Hlen|done|done].
Qed.

(** The first call of the cell is for the beginning of the first page that
    has text. *)
Lemma texts_of_first (before : list str) (pageText : str) (after : list str) :
  Forall (fun p => p = []) before -> pageText <> [] ->
  exists more,
    Textract.texts_of text_arg (before ++ pageText :: after)
    = text_arg pageText 0 :: more.
Proof.
  intros Hbefore Htext. unfold Textract.texts_of.
  rewrite bind_app, bind_cons.
  fold (Textract.texts_of text_arg before).
  rewrite (proj2 (texts_of_nil text_arg before) Hbefore).
  destruct pageText as [|c pageText]; [done|].
  unfold range. cbn [length Nat.sub range_aux Nat.ltb Nat.leb fmap list_fmap].
  eexists. reflexivity.
Qed.

End ReviewFacts.

(** The cell that reviews the results. After the Comprehend Medical cell has
    run to its end, [comprehendResponse[0]] raises [IndexError] exactly when
    the document has no page with text: no page at all, or empty pages
    only. When a page has text, it is the response to the first call of the
    cell, which is the first reply of the service and was made for the
    beginning of the first page that has text. *)
Theorem review_reads_first_response (entities : Type)
    (text_arg : str -> nat -> str) (doc_pages : list str)
    (svc : list (reply entities)) (st : Textract.comprehended entities) :
  Textract.comprehend entities text_arg doc_pages svc = (st, Exited tt) ->
  (Textract.first_response entities st
   = Raise "IndexError: list index out of range"
   <-> Forall (fun pageText => pageText = []) doc_pages)
  /\ (forall (before : list str) (pageText : str) (after : list str),
        doc_pages = before ++ pageText :: after ->
        Forall (fun p => p = []) before -> pageText <> [] ->
        exists response rest,
          svc = Ok response :: rest
          /\ Textract.first_response entities st = Ok response
          /\ head (Textract.comprehendResponse entities st) = Some response
          /\ head (Textract.texts_sent entities st)
             = Some (text_arg pageText 0)).
Proof.
  unfold Textract.comprehend. rewrite detect_pages_serve.
  destruct (Textract.serve _ _ _ _) as [st' [svc'| |]] eqn:Hrun; [|done..].
  intros [= ->].
  apply serve_exited_all in Hrun as (rs & -> & Hlen & Hresp & Hsent).
  cbn [Textract.comprehendResponse Textract.texts_sent app] in Hresp, Hsent.
  unfold Textract.first_response. rewrite Hresp, Hsent.
  split.
  - rewrite <-(texts_of_nil text_arg).
    destruct rs as [|r rs]; destruct (Textract.texts_of _ _); done.
  - intros before pageText after -> Hbefore Htext.
    destruct (texts_of_first text_arg before pageText after Hbefore Htext)
      as (more & Htexts).
    rewrite Htexts in Hlen |- *. destruct rs as [|r rs]; [done|].
    by exists r, ((Ok <$> rs) ++ svc').
Qed.

Lemma review_reads_first_response_witness :
  (Textract.first_response string
     (Textract.comprehend string Textract.text_range [[]; [72; 105]; [79]]%N
        [Ok "entities 1"; Ok "entities 2"]).1
   = Raise "IndexError: list index out of range"
   <-> Forall (fun pageText : str => pageText = []) [[]; [72; 105]; [79]]%N)
  /\ Textract.first_response string
       (Textract.comprehend string Textract.text_range [[]; [72; 105]; [79]]%N
          [Ok "entities 1"; Ok "entities 2"]).1
     = Ok "entities 1".
Proof.
  destruct (Textract.comprehend string Textract.text_range
              [[]; [72; 105]; [79]]%N [Ok "entities 1"; Ok "entities 2"])
    as [st out] eqn:Hrun.
  assert (Hout : out = Exited tt).
  { apply (f_equal snd) in Hrun. vm_compute in Hrun. congruence. }
  subst out.
  destruct (review_reads_first_response _ _ _ _ _ Hrun) as [Hnone Hsome].
  split; [exact Hnone|].
  destruct (Hsome [[]] [72; 105]%N [[79]]%N eq_refl)
    as (response & rest & [= <- _] & Hfirst & _);
    [by repeat constructor|done|done].
Defined.

(** ** The fetch cell on any replies *)

Lemma fetch_while_any tok st svc :
  exists new,
    Textract.pages (Textract.fetch_while tok st svc).1 = Textract.pages st ++ new
    /\ (Ok <$> new) `prefix_of` svc
    /\ match (Textract.fetch_while tok st svc).2 with
       | Exited _ =>
           (new = [] /\ Textract.truthy tok = false
            /\ Textract.requests (Textract.fetch_while tok st svc).1
               = Textract.requests st)
           \/ (exists init last,
                 new = init ++ [last] /\ Textract.truthy tok = true
                 /\ Forall (fun r => has_token r) init
                 /\ Textract.truthy (Textract.NextToken last) = false
                 /\ Textract.requests (Textract.fetch_while tok st svc).1
                    = Textract.requests st
                      ++ tok :: (Textract.NextToken <$> init))
       | _ =>
           Textract.truthy tok = true
           /\ Forall (fun r => has_token r) new
           /\ Textract.requests (Textract.fetch_while tok st svc).1
              = Textract.requests st ++ tok :: (Textract.NextToken <$> new)
       end.
Proof.
  revert tok st. induction svc as [|r svc IH]; intros tok st; simpl;
    destruct (Textract.truthy tok) eqn:Htok; simpl.
  - exists []. rewrite app_nil_r. repeat split; [apply prefix_nil|done].
  - exists []. rewrite app_nil_r. split; [done|]. split; [apply prefix_nil|].
    by left.
  - destruct r as [r|e]; simpl.
    + destruct (IH (Textract.NextToken r)
                   (Textract.Fetched (Textract.pages st ++ [r])
                                     (Textract.requests st ++ [tok])))
        as (new & Hpages & Hpre & Hout).
      exists (r :: new). simpl in Hpages. rewrite <-app_assoc in Hpages.
      split; [done|]. split; [by apply prefix_cons|].
      destruct (Textract.fetch_while _ _ _).2 as [[]| |].
      * right. destruct Hout as [(-> & Hlast & Hreq)
                                |(init & last & -> & Hr & Hinit & Hlast & Hreq)].
        -- exists [], r. by rewrite Hreq.
        -- exists (r :: init), last. simpl in Hreq. rewrite <-app_assoc in Hreq.
           repeat split; try done. by constructor.
      * destruct Hout as (Hr & Hnew & Hreq). simpl in Hreq.
        rewrite <-app_assoc in Hreq. repeat split; try done. by constructor.
      * destruct Hout as (Hr & Hnew & Hreq). simpl in Hreq.
        rewrite <-app_assoc in Hreq. repeat split; try done. by constructor.
    + exists []. rewrite app_nil_r. repeat split; [apply prefix_nil|done].
  - exists []. rewrite app_nil_r. split; [done|]. split; [apply prefix_nil|].
    by left.
Qed.

(** The fetch cell, whatever the service replies. [pages] is the first
    replies of the service, in their order. When the cell runs to its end,
    every page but the last has a token that is not empty and the last has
    none, and when it does not, every page has one; and the requests are one
    without a token and then one with the token of every page that has
    one, in the order of the pages. *)
Theorem fetch_any_replies (svc : list (reply Textract.response)) :
  (Ok <$> Textract.pages (Textract.fetch svc).1) `prefix_of` svc
  /\ match (Textract.fetch svc).2 with
     | Exited _ =>
         exists init last,
           Textract.pages (Textract.fetch svc).1 = init ++ [last]
           /\ Forall (fun r => has_token r) init
           /\ Textract.truthy (Textract.NextToken last) = false
           /\ Textract.requests (Textract.fetch svc).1
              = None :: (Textract.NextToken <$> init)
     | _ =>
         Forall (fun r => has_token r) (Textract.pages (Textract.fetch svc).1)
         /\ Textract.requests (Textract.fetch svc).1
            = None :: (Textract.NextToken
                         <$> Textract.pages (Textract.fetch svc).1)
     end.
Proof.
  destruct svc as [|[r|e] svc]; simpl.
  - split; [apply prefix_nil|done].
  - destruct (fetch_while_any (Textract.NextToken r)
                              (Textract.Fetched [r] [None]) svc)
      as (new & Hpages & Hpre & Hout).
    simpl in Hpages. rewrite Hpages. split; [by apply prefix_cons|].
    destruct (Textract.fetch_while _ _ _).2 as [[]| |].
    + destruct Hout as [(-> & Hlast & Hreq)
                       |(init & last & -> & Hr & Hinit & Hlast & Hreq)].
      * exists [], r. by rewrite Hreq.
      * exists (r :: init), last. rewrite Hreq. repeat split; try done.
        by constructor.
    + destruct Hout as (Hr & Hnew & Hreq). rewrite Hreq. split; [|done].
      by constructor.
    + destruct Hout as (Hr & Hnew & Hreq). rewrite Hreq. split; [|done].
      by constructor.
  - split; [apply prefix_nil|done].
Qed.

(** ** The time that a poll cell sleeps *)

Lemma slept_app l1 l2 : slept (l1 ++ l2) = slept l1 + slept l2.
Proof. unfold slept. by rewrite sleeps_app, sum_list_with_app. Qed.

Lemma slept_query api r l : slept (Describe api r :: l) = slept l.
Proof. done. Qed.

Section Slept.

Variable api : string.
Variable cond : option string -> bool.
Variable before after : option string -> list event.
Variable each : nat.
Hypothesis iteration :
  forall p, slept (before (Some p)) + slept (after (Some p)) = each.

(** The loop sleeps what its first iteration sleeps and, for every status
    that keeps it going, what one more iteration sleeps. *)
Lemma polling_slept st pre s rest :
  cond st = true ->
  Forall (fun s' => cond (Some s') = true) pre ->
  cond (Some s) = false ->
  slept (trace (polling api cond before after st
                        ((Ok <$> pre ++ [s]) ++ rest)))
  = slept (before st) + slept (after st) + each * length pre.
Proof.
  intros Hst Hpre Hs. revert st Hst.
  induction Hpre as [|p pre Hp _ IH]; intros st Hst.
  - change ((Ok <$> [] ++ [s]) ++ rest) with (Ok s :: rest).
    rewrite polling_next, polling_stop by done. unfold emit; cbn [trace].
    rewrite app_nil_r, slept_app, slept_query. simpl. lia.
  - change ((Ok <$> (p :: pre) ++ [s]) ++ rest)
      with (Ok p :: ((Ok <$> pre ++ [s]) ++ rest)).
    rewrite polling_next by done. unfold emit; cbn [trace].
    rewrite !slept_app, slept_query, IH by done.
    rewrite <-(iteration p), length_cons. lia.
Qed.

End Slept.

(** The time that a poll cell sleeps. When the service reports [k] times
    that the job is in progress and then a terminal status, the Textract
    cell sleeps [5 * (k + 1)] seconds in all, the Autopilot cell [30 * k]
    and the tuning cell [60 * k]: the Textract cell alone sleeps when the
    job is over at the first query. *)
Theorem poll_cells_sleep :
  sleeps_in_all Textract.poll (fun s => s = "IN_PROGRESS")
                (fun k => 5 * (k + 1))
  /\ sleeps_in_all Autopilot.poll (fun s => s ∉ Autopilot.finished)
                   (fun k => 30 * k)
  /\ sleeps_in_all Hpo.poll (fun s => s = "InProgress") (fun k => 60 * k).
Proof.
  split; [|split]; intros pre s rest Hpre Hs.
  - rewrite <-trace_as_variable, textract_shape.
    unfold textract_polling. rewrite (polling_slept _ _ _ _ 5); try done.
    + simpl. unfold slept. simpl. lia.
    + eapply Forall_impl; [done|]. intros ? ->. done.
    + simpl. by apply String.eqb_neq.
  - rewrite <-trace_as_variable, autopilot_shape.
    unfold autopilot_polling. rewrite (polling_slept _ _ _ _ 30); try done.
    + eapply Forall_impl; [done|]. intros p Hp. simpl.
      by rewrite negb_true_iff, py_in_false.
    + simpl. rewrite negb_false_iff, py_in_spec.
      by destruct (decide (s ∈ Autopilot.finished)).
  - unfold Hpo.poll. rewrite trace_and_then, slept_app, hpo_while_shape.
    unfold hpo_polling. rewrite (polling_slept _ _ _ _ 60); try done.
    + destruct (result _); simpl; unfold slept; simpl; lia.
    + eapply Forall_impl; [done|]. intros ? ->. done.
    + simpl. by apply String.eqb_neq.
Qed.

Lemma poll_cells_sleep_witness :
  slept (trace (Autopilot.poll
                  ((Ok <$> ["InProgress"; "InProgress"] ++ ["Completed"])
                   ++ [])))
  = 30 * length ["InProgress"; "InProgress"].
Proof.
  destruct poll_cells_sleep as (_ & H & _).
  apply H; [repeat constructor; by intros ?%py_in_spec|].
  intros H'. apply H'. by apply py_in_spec.
Defined.

(** ** The step after a poll cell *)

Lemma runs_of_poll {A} (poll : list (reply string) -> run A)
    status_of repeats next api :
  polls_until_terminal poll status_of repeats ->
  (forall svc, stepless (trace (poll svc))) ->
  Forall (fun ev => is_step ev = true -> ev = Step api) next ->
  Step api ∈ next ->
  runs_on_every_terminal (fun svc => and_then (poll svc) next) poll repeats api.
Proof.
  intros (_ & Hleft & _) Hsteps Hnext Hapi. split.
  - intros pre s rest Hpre Hs.
    destruct (Hleft pre s rest Hpre Hs) as (a & Ha & _).
    rewrite trace_and_then, Ha, elem_of_app. by right.
  - intros svc Hnot. rewrite trace_and_then. apply Forall_app. split; [done|].
    destruct (result (poll svc)) as [a| |]; [by destruct (Hnot a)|done..].
Qed.

(** The step after a poll cell. No notebook looks at the status on which
    its poll cell is left: the result pages of Textract are fetched, the
    best candidate of Autopilot is looked up and the tuner is deployed after
    every terminal status, also after one that reports a failure. The step
    is not made when the poll cell is left by an exception. *)
Theorem next_step_on_every_terminal :
  runs_on_every_terminal Textract.poll_then_fetch Textract.poll
    (fun s => s = "IN_PROGRESS") Textract.get_document_analysis
  /\ runs_on_every_terminal Autopilot.poll_then_best_candidate Autopilot.poll
       (fun s => s ∉ Autopilot.finished) Autopilot.best_candidate
  /\ runs_on_every_terminal Hpo.poll_then_deploy Hpo.poll
       (fun s => s = "InProgress") Hpo.deploy.
Proof.
  split; [|split].
  - eapply runs_of_poll;
      [apply textract_polls_until_terminal|apply textract_stepless| |].
    + repeat constructor; done.
    + apply list_elem_of_further, list_elem_of_here.
  - eapply runs_of_poll;
      [apply autopilot_polls_until_terminal|apply autopilot_stepless| |].
    + repeat constructor; done.
    + apply list_elem_of_here.
  - eapply runs_of_poll;
      [apply hpo_polls_until_terminal|apply hpo_stepless| |].
    + repeat constructor; done.
    + apply list_elem_of_here.
Qed.

Lemma next_step_on_every_terminal_witness :
  Step Autopilot.best_candidate
  ∈ trace (Autopilot.poll_then_best_candidate
             ((Ok <$> ["InProgress"] ++ ["Failed"]) ++ [])).
Proof.
  destruct next_step_on_every_terminal as (_ & [H _] & _).
  apply H; [repeat constructor; by intros ?%py_in_spec|].
  intros H'. apply H'. by apply py_in_spec.
Defined.

(** ** The name of the Autopilot job *)

Lemma digit_inj a b :
  a < 10 -> b < 10 ->
  Ascii.ascii_of_nat (48 + a) = Ascii.ascii_of_nat (48 + b) -> a = b.
Proof.
  intros Ha Hb H. apply (f_equal Ascii.nat_of_ascii) in H.
  rewrite !Ascii.nat_ascii_embedding in H by lia. lia.
Qed.

Lemma two_digits_inj n n' :
  n < 100 -> n' < 100 ->
  Autopilot.two_digits n = Autopilot.two_digits n' -> n = n'.
Proof.
  intros Hn Hn' H.
  assert (Hdiv : forall m, m < 100 -> m / 10 < 10)
    by (intros m Hm; apply Nat.Div0.div_lt_upper_bound; lia).
  assert (Hmod : forall m, m mod 10 < 10)
    by (intros m; apply Nat.mod_upper_bound; lia).
  unfold Autopilot.two_digits in H.
  assert (n / 10 = n' / 10 /\ n mod 10 = n' mod 10) as [H1 H2].
  { split; apply digit_inj; auto; congruence. }
  rewrite (Nat.div_mod_eq n 10), (Nat.div_mod_eq n' 10). lia.
Qed.

Lemma two_digits_app_inj n n' s s' :
  n < 100 -> n' < 100 ->
  Autopilot.two_digits n +:+ s = Autopilot.two_digits n' +:+ s' ->
  n = n' /\ s = s'.
Proof.
  intros Hn Hn' H. unfold Autopilot.two_digits in H. cbn [String.app] in H.
  assert (Autopilot.two_digits n = Autopilot.two_digits n' /\ s = s')
    as [H' Hs]; [|by split; [apply two_digits_inj|]].
  unfold Autopilot.two_digits.
  remember (Ascii.ascii_of_nat (48 + n / 10)) as a.
  remember (Ascii.ascii_of_nat (48 + n mod 10)) as b.
  remember (Ascii.ascii_of_nat (48 + n' / 10)) as a'.
  remember (Ascii.ascii_of_nat (48 + n' mod 10)) as b'.
  injection H as H1 H2 H3.
  change ("" +:+ s) with s in H3. change ("" +:+ s') with s' in H3.
  by rewrite H1, H2, H3.
Qed.

Lemma timestamp_inj (t t' : Autopilot.struct_time) :
  Autopilot.well_formed t -> Autopilot.well_formed t' ->
  Autopilot.timestamp t = Autopilot.timestamp t' ->
  Autopilot.tm_mday t = Autopilot.tm_mday t'
  /\ Autopilot.tm_hour t = Autopilot.tm_hour t'
  /\ Autopilot.tm_min t = Autopilot.tm_min t'
  /\ Autopilot.tm_sec t = Autopilot.tm_sec t'.
Proof.
  intros (_ & Hd & Hh & Hm & Hs) (_ & Hd' & Hh' & Hm' & Hs') H.
  unfold Autopilot.timestamp in H.
  apply two_digits_app_inj in H as [? H]; [|lia..].
  apply (inj (String.app "-")) in H.
  apply two_digits_app_inj in H as [? H]; [|lia..].
  apply (inj (String.app "-")) in H.
  apply two_digits_app_inj in H as [? H]; [|lia..].
  apply (inj (String.app "-")) in H.
  apply two_digits_inj in H; [done|lia..].
Qed.

Lemma app_inj_r (s s' suffix : string) :
  String.length s = String.length s' ->
  s +:+ suffix = s' +:+ suffix -> s = s'.
Proof.
  revert s'. induction s as [|c s IH]; intros [|c' s'] Hlen H; try done.
  cbn [String.append] in H. injection H as -> H.
  f_equal. apply IH; [by injection Hlen|done].
Qed.

(** The name of the Autopilot job has 24 characters at every time, and of
    the time it holds the day of the month, the hour, the minute and the
    second only: two runs of the cell have the same job name exactly when
    they agree on these four, whatever their months and years. *)
Theorem job_name_of_time (t t' : Autopilot.struct_time) :
  Autopilot.well_formed t -> Autopilot.well_formed t' ->
  String.length (Autopilot.auto_ml_job_name t) = 24
  /\ (Autopilot.auto_ml_job_name t = Autopilot.auto_ml_job_name t'
      <-> Autopilot.tm_mday t = Autopilot.tm_mday t'
          /\ Autopilot.tm_hour t = Autopilot.tm_hour t'
          /\ Autopilot.tm_min t = Autopilot.tm_min t'
          /\ Autopilot.tm_sec t = Autopilot.tm_sec t').
Proof.
  intros Ht Ht'. split; [done|]. split.
  - unfold Autopilot.auto_ml_job_name. intros H.
    apply (inj (String.app _)) in H. by apply timestamp_inj.
  - unfold Autopilot.auto_ml_job_name, Autopilot.timestamp.
    by intros (-> & -> & -> & ->).
Qed.

Lemma job_name_of_time_witness :
  Autopilot.auto_ml_job_name (Autopilot.StructTime 2020 5 17 9 30 0)
  = Autopilot.auto_ml_job_name (Autopilot.StructTime 2021 6 17 9 30 0)
  /\ Autopilot.auto_ml_job_name (Autopilot.StructTime 2020 5 17 9 30 0)
     = "automl-churn-17-09-30-00".
Proof.
  split; [|reflexivity].
  apply (job_name_of_time (Autopilot.StructTime 2020 5 17 9 30 0)
           (Autopilot.StructTime 2021 6 17 9 30 0));
    [unfold Autopilot.well_formed; simpl; lia..|done].
Defined.

(** ** The hosting cell run twice *)

(** The hosting cell run a second time, in another second of the month,
    with the same best candidate: its three names differ from those of the
    first run, and as the clean-up cell deletes by the names that the
    variables hold, which are those of the second run, the model, the
    endpoint configuration and the endpoint of the first run are still
    there after it. *)
Theorem first_hosting_outlives_cleanup (best_candidate_name : string)
    (t t' : Autopilot.struct_time) (sm : Autopilot.sagemaker) :
  Autopilot.well_formed t -> Autopilot.well_formed t' ->
  (Autopilot.tm_mday t, Autopilot.tm_hour t, Autopilot.tm_min t,
   Autopilot.tm_sec t)
  <> (Autopilot.tm_mday t', Autopilot.tm_hour t', Autopilot.tm_min t',
      Autopilot.tm_sec t') ->
  let first := Autopilot.host best_candidate_name (Autopilot.timestamp t) sm in
  let second :=
    Autopilot.host best_candidate_name (Autopilot.timestamp t') first.2 in
  let left := Autopilot.cleanup second.1 second.2 in
  Autopilot.model_name first.1 ∈ Autopilot.models left
  /\ Autopilot.epc_name first.1 ∈ Autopilot.endpoint_configs left
  /\ Autopilot.ep_name first.1 ∈ Autopilot.endpoints left
  /\ (Autopilot.model_name second.1 ∉ Autopilot.models left)
  /\ (Autopilot.epc_name second.1 ∉ Autopilot.endpoint_configs left)
  /\ (Autopilot.ep_name second.1 ∉ Autopilot.endpoints left).
Proof.
  intros Ht Ht' Hne first second left.
  assert (Hts : Autopilot.timestamp t <> Autopilot.timestamp t').
  { intros H. apply timestamp_inj in H as (? & ? & ? & ?); [|done..].
    apply Hne. congruence. }
  assert (Hname : forall suffix,
            best_candidate_name +:+ Autopilot.timestamp t +:+ suffix
            <> best_candidate_name +:+ Autopilot.timestamp t' +:+ suffix).
  { intros suffix H. apply (inj (String.app _)) in H.
    by apply app_inj_r in H. }
  subst first second left. unfold Autopilot.host, Autopilot.cleanup.
  cbn [fst snd Autopilot.models Autopilot.endpoint_configs Autopilot.endpoints
       Autopilot.model_name Autopilot.epc_name Autopilot.ep_name].
  rewrite !elem_of_difference, !elem_of_union, !elem_of_singleton.
  split_and!; first [by right; left|apply Hname|by intros [_ H]].
Qed.

Lemma first_hosting_outlives_cleanup_witness :
  let first :=
    Autopilot.host "xgboost-7"
      (Autopilot.timestamp (Autopilot.StructTime 2020 5 17 9 30 0))
      (Autopilot.SageMaker ∅ ∅ ∅) in
  let second :=
    Autopilot.host "xgboost-7"
      (Autopilot.timestamp (Autopilot.StructTime 2020 5 17 9 31 12)) first.2 in
  Autopilot.ep_name first.1
  ∈ Autopilot.endpoints (Autopilot.cleanup second.1 second.2).
Proof.
  intros first second.
  apply (first_hosting_outlives_cleanup "xgboost-7"
           (Autopilot.StructTime 2020 5 17 9 30 0)
           (Autopilot.StructTime 2020 5 17 9 31 12)
           (Autopilot.SageMaker ∅ ∅ ∅));
    [unfold Autopilot.well_formed; simpl; lia..|done].
Defined.

(** ** The test of the version of the SDK *)

(** The evaluation cell compares the version of the SDK with ['2'] as
    strings. The test looks at the first character only: it holds for the
    empty string and for every version that begins with a character before
    [2], also for versions 10 to 19, and for no other. *)
Theorem version_test_reads_first_character (version : str) :
  Autopilot.version_1 version = true
  <-> version = [] \/ exists c rest, version = c :: rest /\ (c < 50)%N.
Proof.
  unfold Autopilot.version_1. destruct version as [|c rest]; cbn [str_lt].
  - split; [by left|done].
  - destruct (c <? 50)%N eqn:Hc.
    + apply N.ltb_lt in Hc. split; [|done]. intros _. right. by exists c, rest.
    + apply N.ltb_ge in Hc. destruct (50 <? c)%N; destruct rest.
      all: split; [done|]; intros [?|(c' & rest' & [= <- <-] & ?)]; [done|lia].
Qed.

(** ** Frames by columns *)

Section TabularFacts.

Import Tabular.

Lemma bind_Ok {A B} (m : reply A) (k : A -> reply B) a :
  m = Ok a -> m ≫= k = k a.
Proof. by intros ->. Qed.

Lemma bind_Raise {A B} (m : reply A) (k : A -> reply B) e :
  m = Raise e -> m ≫= k = Raise e.
Proof. by intros ->. Qed.

Lemma bind_Ok_inv {A B} (m : reply A) (k : A -> reply B) b :
  m ≫= k = Ok b -> exists a, m = Ok a /\ k a = Ok b.
Proof. destruct m as [a|e]; [by exists a|done]. Qed.

Lemma filter_all {A} (P : A -> Prop) `{forall x, Decision (P x)} (l : list A) :
  Forall P l -> filter P l = l.
Proof.
  induction 1 as [|x l Hx Hl IH]; [done|].
  by rewrite filter_cons_True, IH.
Qed.

Lemma column_Some name cs vs : column name cs = Some vs -> (name, vs) ∈ cs.
Proof.
  induction cs as [|[n old] cs IH]; [done|]. simpl.
  destruct (String.eqb_spec n name) as [->|Hn].
  - intros [= ->]. apply list_elem_of_here.
  - intros H. apply list_elem_of_further. by apply IH.
Qed.

Lemma column_None name cs : column name cs = None <-> name ∉ cs.*1.
Proof.
  induction cs as [|[n old] cs IH]; simpl.
  - split; [intros _; apply not_elem_of_nil|done].
  - rewrite not_elem_of_cons. destruct (String.eqb_spec n name) as [->|Hn].
    + split; [done|]. by intros [? _].
    + rewrite IH. split; [by split|by intros [_ ?]].
Qed.

Lemma getitem_cases df name :
  (name ∈ columns df
   /\ (exists vs, getitem df name = Ok vs /\ (name, vs) ∈ cols df))
  \/ ((name ∉ columns df) /\ getitem df name = Raise ("KeyError: " +:+ name)).
Proof.
  unfold getitem, columns. destruct (column name (cols df)) as [vs|] eqn:E.
  - left. apply column_Some in E. split; [|by exists vs].
    apply list_elem_of_fmap. by exists (name, vs).
  - right. by apply column_None in E.
Qed.

Lemma getitem_length df name vs :
  well_formed df -> getitem df name = Ok vs -> length vs = nrows df.
Proof.
  intros [_ Hlen] H. destruct (getitem_cases df name) as [(_ & vs' & H' & Hin)|[_ H']];
    [|congruence].
  rewrite H in H'. injection H' as <-.
  rewrite Forall_forall in Hlen. by apply (Hlen (name, vs)).
Qed.

Lemma occurrences_NoDup df name :
  NoDup (columns df) -> name ∈ columns df -> occurrences name df = 1.
Proof.
  unfold occurrences. induction 1 as [|n l Hn Hl IH]; intros Hin.
  - by apply not_elem_of_nil in Hin.
  - destruct (decide (n = name)) as [->|Hne].
    + rewrite filter_cons_True by done. simpl. f_equal.
      destruct (filter _ l) as [|x xs] eqn:E; [done|].
      assert (Hx : x ∈ filter (fun n => n = name) l)
        by (rewrite E; apply list_elem_of_here).
      by apply list_elem_of_filter in Hx as [-> ?].
    + rewrite filter_cons_False by done. apply IH.
      by apply elem_of_cons in Hin as [->|Hin].
Qed.

Lemma getitem_rename_Ok df name vs :
  getitem_rename df name = Ok vs ->
  getitem df name = Ok vs /\ occurrences name df = 1.
Proof.
  unfold getitem_rename. destruct (getitem df name) as [vs'|e]; [|done].
  destruct (Nat.eqb_spec (occurrences name df) 1); [|done].
  by intros [= ->].
Qed.

Lemma getitem_rename_distinct df name :
  NoDup (columns df) -> getitem_rename df name = getitem df name.
Proof.
  intros Hnames. unfold getitem_rename.
  destruct (getitem_cases df name) as [(Hin & vs & -> & _)|[_ ->]]; [|done].
  by rewrite occurrences_NoDup.
Qed.

Lemma assign_column_names name vs cs :
  (assign_column name vs cs).*1
  = if decide (name ∈ cs.*1) then cs.*1 else cs.*1 ++ [name].
Proof.
  induction cs as [|[n old] cs IH]; cbn [assign_column].
  - destruct (decide (name ∈ _)) as [H|_];
      [by apply not_elem_of_nil in H|reflexivity].
  - destruct (String.eqb_spec n name) as [->|Hn]; rewrite !fmap_cons; cbn [fst].
    + destruct (decide (name ∈ name :: cs.*1)) as [_|H]; [reflexivity|].
      destruct H. apply list_elem_of_here.
    + rewrite IH. destruct (decide (name ∈ cs.*1)) as [H|H];
        destruct (decide (name ∈ n :: cs.*1)) as [H'|H']; try reflexivity.
      * destruct H'. by apply list_elem_of_further.
      * apply elem_of_cons in H' as [->|H']; done.
Qed.

Lemma column_assign name vs cs n :
  column n (assign_column name vs cs)
  = if decide (n = name) then Some vs else column n cs.
Proof.
  induction cs as [|[m old] cs IH]; simpl.
  - destruct (String.eqb_spec name n) as [->|Hn];
      destruct (decide _) as [H|H]; congruence.
  - destruct (String.eqb_spec m name) as [->|Hm]; simpl.
    + destruct (String.eqb_spec name n) as [->|Hn];
        destruct (decide _) as [H|H]; congruence.
    + destruct (String.eqb_spec m n) as [->|Hn].
      * destruct (decide _) as [H|H]; congruence.
      * apply IH.
Qed.

Lemma assign_column_lengths k name vs cs :
  Forall (fun c : string * list value => length c.2 = k) cs ->
  length vs = k ->
  Forall (fun c : string * list value => length c.2 = k)
         (assign_column name vs cs).
Proof.
  intros Hcs Hvs. induction Hcs as [|[n old] cs Hn Hcs IH]; simpl.
  - by repeat constructor.
  - destruct (String.eqb n name); constructor; done.
Qed.

Lemma setitem_spec df name vs :
  well_formed df -> length vs = nrows df ->
  exists df', setitem df name vs = Ok df'
    /\ well_formed df' /\ nrows df' = nrows df
    /\ columns df' = (if decide (name ∈ columns df) then columns df
                      else columns df ++ [name])
    /\ forall n, getitem df' n
                 = if decide (n = name) then Ok vs else getitem df n.
Proof.
  intros [Hnames Hlen] Hvs. unfold setitem.
  rewrite (proj2 (Nat.eqb_eq _ _) Hvs). eexists. split; [done|].
  unfold well_formed, columns, getitem. cbn [nrows cols].
  rewrite assign_column_names. repeat split.
  - destruct (decide _) as [H|H]; [done|]. apply NoDup_app.
    repeat split; [done| |apply NoDup_singleton].
    intros x Hx ->%list_elem_of_singleton. done.
  - by apply assign_column_lengths.
  - intros n. rewrite column_assign. by destruct (decide _).
Qed.

Lemma filter_names (labels : list string) (cs : list (string * list value)) :
  (filter (fun c => c.1 ∉ labels) cs).*1 = filter (.∉ labels) cs.*1.
Proof.
  induction cs as [|[n old] cs IH]; [done|]. rewrite fmap_cons. cbn [fst].
  destruct (decide (n ∈ labels)) as [H|H].
  - rewrite !filter_cons_False by (cbn; tauto). done.
  - rewrite !filter_cons_True by done. rewrite fmap_cons. cbn [fst].
    by rewrite IH.
Qed.

Lemma column_filter (labels : list string) cs n :
  column n (filter (fun c => c.1 ∉ labels) cs)
  = if decide (n ∈ labels) then None else column n cs.
Proof.
  induction cs as [|[m old] cs IH].
  - by destruct (decide (n ∈ labels)).
  - destruct (decide (m ∈ labels)) as [H|H].
    + rewrite filter_cons_False by (cbn; tauto). rewrite IH. cbn [column].
      destruct (decide (n ∈ labels)) as [_|Hn]; [done|].
      destruct (String.eqb_spec m n) as [->|_]; done.
    + rewrite filter_cons_True by done. cbn [column]. rewrite IH.
      destruct (String.eqb_spec m n) as [->|_]; [|done].
      by destruct (decide (n ∈ labels)).
Qed.

Lemma drop_columns_cases df labels :
  match drop_columns df labels with
  | Ok df' =>
      Forall (.∈ columns df) labels
      /\ df' = Table (nrows df) (filter (fun c => c.1 ∉ labels) (cols df))
  | Raise e => exists l, l ∈ labels /\ (l ∉ columns df) /\ e = "KeyError: " +:+ l
  end.
Proof.
  unfold drop_columns.
  destruct (filter (fun l => l ∉ columns df) labels) as [|l ls] eqn:E.
  - split; [|done]. apply Forall_forall. intros l Hl.
    destruct (decide (l ∈ columns df)) as [|Hno]; [done|].
    assert (H : l ∈ filter (fun l => l ∉ columns df) labels)
      by by apply list_elem_of_filter.
    rewrite E in H. by apply not_elem_of_nil in H.
  - exists l.
    assert (H : l ∈ filter (fun l => l ∉ columns df) labels)
      by (rewrite E; apply list_elem_of_here).
    apply list_elem_of_filter in H as [? ?]. done.
Qed.

Lemma dropped_well_formed df (labels : list string) :
  well_formed df ->
  well_formed (Table (nrows df) (filter (fun c => c.1 ∉ labels) (cols df))).
Proof.
  intros [Hnames Hlen]. split; cbn [nrows cols]; unfold columns; cbn [cols].
  - rewrite filter_names. by apply NoDup_filter.
  - apply Forall_forall. intros c [_ Hc]%list_elem_of_filter.
    rewrite Forall_forall in Hlen. by apply Hlen.
Qed.

Lemma dropped_getitem df (labels : list string) name :
  getitem (Table (nrows df) (filter (fun c => c.1 ∉ labels) (cols df))) name
  = if decide (name ∈ labels) then Raise ("KeyError: " +:+ name)
    else getitem df name.
Proof.
  unfold getitem. cbn [cols]. rewrite column_filter. by destruct (decide _).
Qed.

End TabularFacts.

(** ** The data of the tuning notebook *)

Section BankFacts.

Import Tabular Bank.

Lemma where_eq_length vs v : length (where_eq vs v) = length vs.
Proof. apply length_fmap. Qed.

Lemma where_in1d_length vs among : length (where_in1d vs among) = length vs.
Proof. apply length_fmap. Qed.

Lemma filter_two_new (names : list string) (a b : string) :
  a <> b ->
  (let names' := if decide (a ∈ names) then names else names ++ [a] in
   if decide (b ∈ names') then names' else names' ++ [b])
  = names ++ filter (.∉ names) [a; b].
Proof.
  intros Hab. cbv zeta. rewrite !filter_cons, filter_nil.
  repeat case_decide;
    repeat match goal with
      | H : _ ∈ _ ++ _ |- _ =>
          apply elem_of_app in H as [H|H%list_elem_of_singleton]
      | H : ¬ (_ ∈ _ ++ _) |- _ => rewrite elem_of_app in H
      end;
    rewrite ?app_nil_r, <- ?app_assoc; try done; try tauto.
  all: try (exfalso; rewrite list_elem_of_singleton in *; tauto).
Qed.

Lemma add_indicators_Ok df_data df :
  well_formed df_data -> add_indicators df_data = Ok df ->
  well_formed df /\ nrows df = nrows df_data
  /\ columns df_data
     ++ filter (.∉ columns df_data) ["no_previous_contact"; "not_working"]
     = columns df.
Proof.
  intros Hwf H. unfold add_indicators in H.
  apply bind_Ok_inv in H as (pdays & Hp & H).
  apply bind_Ok_inv in H as (df1 & H1 & H).
  apply bind_Ok_inv in H as (job & Hj & H).
  destruct (setitem_spec df_data "no_previous_contact"
              (where_eq pdays (VInt 999)) Hwf)
    as (df1' & H1' & Hwf1 & Hn1 & Hc1 & Hg1).
  { rewrite where_eq_length. by eapply getitem_length. }
  rewrite H1 in H1'. injection H1' as <-.
  destruct (setitem_spec df1 "not_working"
              (where_in1d job not_working_jobs) Hwf1)
    as (df2 & H2 & Hwf2 & Hn2 & Hc2 & Hg2).
  { rewrite where_in1d_length. by eapply getitem_length. }
  rewrite H in H2. injection H2 as <-.
  split_and!; [done|congruence|].
  rewrite Hc2, Hc1. symmetry. by apply filter_two_new.
Qed.

Lemma label_first_Ok d df :
  label_first d = Ok df ->
  exists y, getitem d "y_yes" = Ok y
    /\ df = concat_series "y" y
              (Table (nrows d) (filter (fun c => c.1 ∉ ["y_no"; "y_yes"])
                                       (cols d))).
Proof.
  intros H. unfold label_first in H.
  apply bind_Ok_inv in H as (y & Hy & H).
  apply getitem_rename_Ok in Hy as [Hy _].
  apply bind_Ok_inv in H as (rest & Hrest & H).
  pose proof (drop_columns_cases d ["y_no"; "y_yes"]) as Hc.
  rewrite Hrest in Hc. destruct Hc as [_ ->].
  exists y. split; [done|congruence].
Qed.

(** On a frame with two columns [y_yes], the label cell ends in the
    [TypeError] of [rename]. *)
Lemma label_first_of_two_labels d :
  1 < occurrences "y_yes" d ->
  label_first d = Raise "TypeError: 'str' object is not callable".
Proof.
  intros Htwo. unfold label_first, getitem_rename.
  destruct (getitem_cases d "y_yes") as [(_ & y & -> & _)|[Hno _]].
  - destruct (Nat.eqb_spec (occurrences "y_yes" d) 1); [lia|done].
  - unfold occurrences in Htwo.
    destruct (filter _ _) as [|n ns] eqn:E; [simpl in Htwo; lia|].
    assert (Hn : n ∈ filter (fun n => n = "y_yes") (columns d))
      by (rewrite E; apply list_elem_of_here).
    apply list_elem_of_filter in Hn as [-> Hn]. done.
Qed.

(** The two indicator columns. On a frame with columns [pdays] and [job] the
    cell adds the column [no_previous_contact], which is 1 in the rows where
    [pdays] is 999 and 0 in the others, and the column [not_working], which
    is 1 in the rows where [job] is one of student, retired and unemployed:
    as new last columns, in this order, or in the place of a column that had
    the name. No other column and no row changes. Without a column [pdays]
    the cell ends in a [KeyError] for it, and with it but without a column
    [job] in a [KeyError] for [job]. *)
Theorem indicators_added (df_data : table) :
  well_formed df_data ->
  match add_indicators df_data with
  | Ok df =>
      exists pdays job,
        getitem df_data "pdays" = Ok pdays
        /\ getitem df_data "job" = Ok job
        /\ getitem df "no_previous_contact" = Ok (where_eq pdays (VInt 999))
        /\ getitem df "not_working" = Ok (where_in1d job not_working_jobs)
        /\ (forall name,
              name ∉ ["no_previous_contact"; "not_working"] ->
              getitem df name = getitem df_data name)
        /\ columns df
           = columns df_data
             ++ filter (.∉ columns df_data)
                       ["no_previous_contact"; "not_working"]
        /\ nrows df = nrows df_data
        /\ well_formed df
  | Raise e =>
      (("pdays" ∉ columns df_data) /\ e = "KeyError: pdays")
      \/ ("pdays" ∈ columns df_data /\ ("job" ∉ columns df_data)
          /\ e = "KeyError: job")
  end.
Proof.
  intros Hwf. unfold add_indicators.
  destruct (getitem_cases df_data "pdays") as [(Hin & pdays & Hp & _)|[Hno Hp]];
    [|rewrite (bind_Raise _ _ _ Hp); by left].
  rewrite (bind_Ok _ _ _ Hp).
  destruct (setitem_spec df_data "no_previous_contact"
              (where_eq pdays (VInt 999)) Hwf)
    as (df1 & H1 & Hwf1 & Hn1 & Hc1 & Hg1).
  { rewrite where_eq_length. by eapply getitem_length. }
  rewrite (bind_Ok _ _ _ H1).
  assert (Hjob : getitem df1 "job" = getitem df_data "job")
    by (rewrite Hg1; by destruct (decide _)).
  destruct (getitem_cases df_data "job") as [(Hin' & job & Hj & _)|[Hno Hj]];
    rewrite Hj in Hjob;
    [|rewrite (bind_Raise _ _ _ Hjob); by right].
  rewrite (bind_Ok _ _ _ Hjob).
  destruct (setitem_spec df1 "not_working"
              (where_in1d job not_working_jobs) Hwf1)
    as (df2 & H2 & Hwf2 & Hn2 & Hc2 & Hg2).
  { rewrite where_in1d_length. by eapply getitem_length. }
  rewrite H2. exists pdays, job. split_and!; [done|done| | | | | |done].
  - rewrite Hg2, Hg1. by repeat destruct (decide _).
  - rewrite Hg2. by destruct (decide _).
  - intros name Hname. rewrite Hg2, Hg1.
    apply not_elem_of_cons in Hname as [? Hname].
    apply not_elem_of_cons in Hname as [? _].
    by repeat destruct (decide _).
  - rewrite Hc2, Hc1, !filter_cons, filter_nil.
    repeat case_decide;
      repeat match goal with
        | H : _ ∈ _ ++ _ |- _ =>
            apply elem_of_app in H as [H|H%list_elem_of_singleton]
        | H : ¬ (_ ∈ _ ++ _) |- _ => rewrite elem_of_app in H
        end;
      rewrite ?app_nil_r, <- ?app_assoc; try done; try tauto.
  - congruence.
Qed.

Lemma two_clients_well_formed : well_formed two_clients.
Proof.
  split.
  - unfold columns. cbn.
    repeat (apply NoDup_cons; split; [intros H; in_list H|]). apply NoDup_nil_2.
  - repeat constructor.
Defined.

Lemma indicators_added_witness :
  exists df,
    add_indicators two_clients = Ok df
    /\ getitem df "no_previous_contact" = Ok [VInt 1; VInt 0]
    /\ getitem df "not_working" = Ok [VInt 1; VInt 0].
Proof.
  pose proof (indicators_added two_clients two_clients_well_formed) as H.
  destruct (add_indicators two_clients) as [df|e] eqn:E; [|by vm_compute in E].
  destruct H as (pdays & job & Hp & Hj & Hpc & Hnw & _).
  injection Hp as <-. injection Hj as <-.
  exists df. by split_and!.
Defined.

(** [DataFrame.drop] along the columns. When every label is a column, the
    result has the rows of the frame and its columns without those of the
    labels, each as it was and in the order that they had, and reading a
    dropped column from it is a [KeyError]. When a label is not a column,
    nothing is dropped: the call is a [KeyError] for such a label. *)
Theorem columns_dropped (df : table) (labels : list string) :
  match drop_columns df labels with
  | Ok df' =>
      Forall (.∈ columns df) labels
      /\ nrows df' = nrows df
      /\ columns df' = filter (.∉ labels) (columns df)
      /\ (forall name,
            getitem df' name
            = if decide (name ∈ labels) then Raise ("KeyError: " +:+ name)
              else getitem df name)
      /\ (well_formed df -> well_formed df')
  | Raise e =>
      exists l, l ∈ labels /\ (l ∉ columns df) /\ e = "KeyError: " +:+ l
  end.
Proof.
  pose proof (drop_columns_cases df labels) as H.
  destruct (drop_columns df labels) as [df'|e]; [|done].
  destruct H as [Hall ->]. split_and!; [done|done| | |].
  - apply filter_names.
  - apply dropped_getitem.
  - apply dropped_well_formed.
Qed.

(** The label as the first column. On a frame with distinct names that has
    columns [y_yes] and [y_no], the cell leaves the column [y_yes] under the
    name [y] as the first column, followed by the other columns but [y_no]
    and [y_yes], as they were; the rows stay. When the frame had no column
    [y], the names of the result are again distinct and [y] reads the values
    of [y_yes]. Without a column [y_yes] the cell ends in a [KeyError] for
    it, and with it but without [y_no] in a [KeyError] for [y_no]. *)
Theorem label_is_first (df_model_data : table) :
  well_formed df_model_data ->
  match label_first df_model_data with
  | Ok df =>
      exists y,
        getitem df_model_data "y_yes" = Ok y
        /\ "y_no" ∈ columns df_model_data
        /\ cols df
           = ("y", y) :: filter (fun c => c.1 ∉ ["y_no"; "y_yes"])
                                (cols df_model_data)
        /\ columns df
           = "y" :: filter (.∉ ["y_no"; "y_yes"]) (columns df_model_data)
        /\ (forall name,
              name ∉ ["y"; "y_no"; "y_yes"] ->
              getitem df name = getitem df_model_data name)
        /\ nrows df = nrows df_model_data
        /\ (("y" ∉ columns df_model_data) ->
            well_formed df /\ getitem df "y" = Ok y)
  | Raise e =>
      (("y_yes" ∉ columns df_model_data) /\ e = "KeyError: y_yes")
      \/ ("y_yes" ∈ columns df_model_data
          /\ ("y_no" ∉ columns df_model_data) /\ e = "KeyError: y_no")
  end.
Proof.
  intros Hwf. unfold label_first.
  rewrite getitem_rename_distinct by apply Hwf.
  destruct (getitem_cases df_model_data "y_yes")
    as [(Hin & y & Hy & Hiny)|[Hno Hy]];
    [|rewrite (bind_Raise _ _ _ Hy); by left].
  rewrite (bind_Ok _ _ _ Hy).
  pose proof (drop_columns_cases df_model_data ["y_no"; "y_yes"]) as H.
  destruct (drop_columns df_model_data ["y_no"; "y_yes"]) as [rest|e].
  - destruct H as [Hall ->]. change (Ok ?r ≫= ?k) with (k r). cbv beta.
    exists y. split_and!; [done| |done| | |done|].
    + by apply Forall_cons in Hall as [? _].
    + unfold columns, concat_series. cbn [cols]. rewrite fmap_cons.
      by rewrite filter_names.
    + intros name Hname.
      apply not_elem_of_cons in Hname as [Hname Hrest].
      unfold getitem, concat_series. cbn [cols column].
      destruct (String.eqb_spec "y" name) as [<-|_]; [done|].
      rewrite column_filter. by rewrite decide_False.
    + intros Hnew.
      destruct (dropped_well_formed df_model_data ["y_no"; "y_yes"] Hwf)
        as [Hnames Hlen].
      split; [split|].
      * unfold columns, concat_series in *. cbn [cols] in *.
        rewrite fmap_cons. apply NoDup_cons. split; [|done].
        rewrite filter_names. by intros [_ ?]%list_elem_of_filter.
      * unfold concat_series in *. cbn [cols nrows] in *.
        apply Forall_cons. split; [|done].
        by apply (getitem_length df_model_data "y_yes").
      * unfold getitem, concat_series. cbn [cols column]. done.
  - destruct H as (l & Hl & Hnol & ->). unfold mbind, reply_bind.
    right. apply elem_of_cons in Hl as [->|Hl]; [done|].
    apply list_elem_of_singleton in Hl as ->. done.
Qed.

Lemma two_converted_well_formed : well_formed two_converted.
Proof.
  split.
  - unfold columns. cbn.
    repeat (apply NoDup_cons; split; [intros H; in_list H|]). apply NoDup_nil_2.
  - repeat constructor.
Defined.

Lemma label_is_first_witness :
  exists df,
    label_first two_converted = Ok df
    /\ cols df = [("y", [VInt 0; VInt 1]);
                  ("pdays", [VInt 999; VInt 3]);
                  ("no_previous_contact", [VInt 1; VInt 0])].
Proof.
  pose proof (label_is_first two_converted two_converted_well_formed) as H.
  destruct (label_first two_converted) as [df|e] eqn:E; [|by vm_compute in E].
  destruct H as (y & Hy & _ & Hcols & _).
  injection Hy as <-. exists df. by split.
Defined.

(** The cell that prepares the data, whatever the reader writes for the
    conversion. When the cell returns, the conversion was given a frame with
    the rows of the data, the two indicator columns and none of the six
    columns that are dropped, and the result is the frame that the
    conversion returned with [y_yes] as first column [y] and without
    [y_no]. When the conversion left no column [y], the features that the
    evaluation takes from a frame with the columns of the prepared one are
    all its columns but the first, for all its rows. *)
Theorem prepared (convert : table -> reply table) (df_data df : table) :
  well_formed df_data ->
  prepare convert df_data = Ok df ->
  exists d0 d d',
    add_indicators df_data = Ok d0
    /\ drop_unnecessary d0 = Ok d
    /\ convert d = Ok d'
    /\ label_first d' = Ok df
    /\ well_formed d
    /\ nrows d = nrows df_data
    /\ columns d
       = filter (.∉ unnecessary)
           (columns df_data
            ++ filter (.∉ columns df_data)
                      ["no_previous_contact"; "not_working"])
    /\ nrows df = nrows d'
    /\ columns df = "y" :: filter (.∉ ["y_no"; "y_yes"]) (columns d')
    /\ (forall test_data,
          columns test_data = columns df -> ("y" ∉ columns d') ->
          exists X_test,
            features test_data = Ok X_test
            /\ columns X_test = tail (columns df)
            /\ nrows X_test = nrows test_data).
Proof.
  intros Hwf H. unfold prepare in H.
  apply bind_Ok_inv in H as (d0 & H0 & H).
  apply bind_Ok_inv in H as (d & Hd & H).
  apply bind_Ok_inv in H as (d' & Hd' & H).
  exists d0, d, d'. split_and!; try done.
  - unfold drop_unnecessary in Hd.
    pose proof (drop_columns_cases d0 unnecessary) as Hc.
    rewrite Hd in Hc. destruct Hc as [_ ->].
    apply dropped_well_formed. by apply add_indicators_Ok in H0 as (? & _).
  - unfold drop_unnecessary in Hd.
    pose proof (drop_columns_cases d0 unnecessary) as Hc.
    rewrite Hd in Hc. destruct Hc as [_ ->]. cbn [nrows].
    by apply add_indicators_Ok in H0 as (_ & ? & _).
  - unfold drop_unnecessary in Hd.
    pose proof (drop_columns_cases d0 unnecessary) as Hc.
    rewrite Hd in Hc. destruct Hc as [_ ->].
    apply add_indicators_Ok in H0 as (_ & _ & ->); [|done].
    apply filter_names.
  - by apply label_first_Ok in H as (y & _ & ->).
  - apply label_first_Ok in H as (y & _ & ->).
    unfold columns, concat_series. cbn [cols]. rewrite fmap_cons.
    by rewrite filter_names.
  - intros test_data Hcols Hnew.
    assert (Hdf : columns df
                  = "y" :: filter (.∉ ["y_no"; "y_yes"]) (columns d')).
    { apply label_first_Ok in H as (y & _ & ->).
      unfold columns, concat_series. cbn [cols]. rewrite fmap_cons.
      by rewrite filter_names. }
    rewrite Hdf in Hcols |- *. cbn [tail].
    unfold features. pose proof (drop_columns_cases test_data ["y"]) as Hc.
    destruct (drop_columns test_data ["y"]) as [X_test|e].
    + destruct Hc as [_ ->]. eexists. split_and!; [done| |done].
      unfold columns at 1. cbn [cols]. rewrite filter_names.
      fold (columns test_data). rewrite Hcols.
      rewrite filter_cons_False
        by (intros Hy; apply Hy, list_elem_of_here).
      apply filter_all, Forall_forall.
      intros c [_ Hc]%list_elem_of_filter Hy%list_elem_of_singleton.
      by subst c.
    + destruct Hc as (l & ->%list_elem_of_singleton & Hl & _).
      destruct Hl. rewrite Hcols. apply list_elem_of_here.
Qed.

Lemma prepared_witness :
  exists df,
    prepare label_dummies two_clients = Ok df
    /\ head (columns df) = Some "y"
    /\ exists X_test,
         features df = Ok X_test /\ columns X_test = tail (columns df).
Proof.
  destruct (prepare label_dummies two_clients) as [df|e] eqn:E;
    [|by vm_compute in E].
  destruct (prepared _ _ _ two_clients_well_formed E)
    as (d0 & d & d' & H0 & Hd & Hconv & _ & _ & _ & _ & _ & Hdf & Hfeatures).
  exists df. split_and!; [done|by rewrite Hdf|].
  destruct (Hfeatures df) as (X_test & HX & Hcols & _);
    [done| |by exists X_test].
  vm_compute in H0. injection H0 as <-.
  vm_compute in Hd. injection Hd as <-.
  vm_compute in Hconv. injection Hconv as <-.
  unfold columns. cbn. intros H. in_list H.
Defined.

End BankFacts.
